(** * glyph_image: a verification development

    A shallow embedding of [nototools/glyph_image/glyph_image.c], the
    program that dumps the rendered glyphs of a font as text, and the
    properties of its range clamping, advance encoding, row encoding and
    end-of-file marker.

    C [int] values are integers of [Z] with the conversions written out,
    [unsigned char] pixels are [Byte.byte], C strings and the two output
    streams are [string].  FreeType and the clock are not part of the
    program: their answers are the fields of a record the program is run
    against, and every call the program makes is logged. *)

From Stdlib Require Import ZArith List String Ascii Bool Lia.
From Stdlib Require Import Strings.Byte.
From Stdlib Require DecimalString HexadecimalString DecimalPos.
Import ListNotations.

Local Open Scope string_scope.
Local Open Scope Z_scope.

(** ** C integers *)

Module CInt.

Definition INT_MIN : Z := -2147483648.
Definition INT_MAX : Z := 2147483647.

(** Conversion of an integer value to [int] (32 bits, two's complement):
    what an assignment of a [long] or of an [unsigned] to an [int] does. *)
Definition to_int (z : Z) : Z := (z + 2147483648) mod 4294967296 - 2147483648.

(** Conversion to [unsigned int]. *)
Definition to_uint (z : Z) : Z := z mod 4294967296.

Definition in_int (z : Z) : Prop := INT_MIN <= z <= INT_MAX.

(** [a >> n] on an [int]: the arithmetic shift of gcc and clang. *)
Definition shr (a n : Z) : Z := Z.shiftr a n.

(** [a % b] on [int]s: C99 truncates the quotient toward zero, so the
    remainder has the sign of [a]. *)
Definition rem (a b : Z) : Z := Z.rem a b.

End CInt.

(** ** The C library: printf conversions and atoi *)

Module Printf.

Definition LF : string := String "010"%char EmptyString.

(** [%d] and [%ld]. *)
Definition fmt_d (z : Z) : string :=
  DecimalString.NilZero.string_of_int (Z.to_int z).

(** [%x]: lower-case hexadecimal digits of the [unsigned int] argument. *)
Definition fmt_x (v : Z) : string :=
  HexadecimalString.NilZero.string_of_uint
    (N.to_hex_uint (Z.to_N (CInt.to_uint v))).

(** [%02x]: [%x] padded with zeros on the left to two characters. *)
Definition fmt_02x (v : Z) : string :=
  let s := fmt_x v in
  match s with
  | String _ EmptyString => String "0" s
  | _ => s
  end.

End Printf.

Module Stdlib_h.

Definition isspace (c : ascii) : bool :=
  let n := N_of_ascii c in
  (n =? 32)%N || ((9 <=? n)%N && (n <=? 13)%N).

Definition digit_value (c : ascii) : option Z :=
  let n := Z.of_N (N_of_ascii c) in
  if (48 <=? n) && (n <=? 57) then Some (n - 48) else None.

Fixpoint skip_space (s : string) : string :=
  match s with
  | String c s' => if isspace c then skip_space s' else s
  | EmptyString => s
  end.

Fixpoint digits (s : string) (acc : Z) : Z :=
  match s with
  | String c s' =>
      match digit_value c with
      | Some d => digits s' (10 * acc + d)
      | None => acc
      end
  | EmptyString => acc
  end.

(** [atoi]: white space, an optional sign, then decimal digits up to the
    first other character; the value is converted to [int]. *)
Definition atoi (s : string) : Z :=
  match skip_space s with
  | String "-" s' => CInt.to_int (- digits s' 0)
  | String "+" s' => CInt.to_int (digits s' 0)
  | s' => CInt.to_int (digits s' 0)
  end.

End Stdlib_h.

Import Printf.

(** ** FreeType's records, the fields the program reads *)

Record FT_Bitmap : Type := mkBitmap {
  rows : Z;             (* unsigned int *)
  width : Z;            (* unsigned int *)
  pitch : Z;            (* int *)
  buffer : list byte    (* unsigned char* *)
}.

Record FT_GlyphSlot : Type := mkSlot {
  advance_x : Z;        (* FT_Pos, 26.6 *)
  bitmap_left : Z;
  bitmap_top : Z;
  bitmap : FT_Bitmap
}.

Record FT_Face : Type := mkFace {
  family_name : string;
  style_name : string;
  units_per_EM : Z;
  ascender : Z;
  descender : Z;
  num_glyphs : Z        (* FT_Long *)
}.

(** What the program is run against: the answers of FreeType for the font
    and the size of the run (an error code is an [int], 0 for success),
    the slot [face->glyph] holds once a glyph is loaded and rendered, and
    the local time as [strftime] formats it with ["%F %T"]. *)
Record Env : Type := mkEnv {
  FT_Init_FreeType : Z;
  FT_New_Face : string -> Z * FT_Face;
  FT_Set_Pixel_Sizes : Z -> Z;
  FT_Load_Glyph : Z -> Z;
  FT_Render_Glyph : Z -> Z;
  glyph : Z -> FT_GlyphSlot;
  now : string
}.

Inductive FT_Call : Type :=
| CallInit
| CallNewFace (face_name : string)
| CallSetPixelSizes (size : Z)
| CallLoadGlyph (glyph_index : Z)
| CallRenderGlyph (glyph_index : Z).

(** ** Procedures: two output streams, a call log and early [return] *)

Record Out : Type := mkOut {
  stdout : string;
  stderr : string;
  calls : list FT_Call
}.

Definition start : Out := mkOut "" "" [].

Inductive flow (A : Type) : Type :=
| Next (a : A)
| Return (rc : Z).
Arguments Next {A} a.
Arguments Return {A} rc.

Definition Proc (A : Type) : Type := Out -> flow A * Out.

Definition ret {A : Type} (a : A) : Proc A := fun o => (Next a, o).

Definition bind {A B : Type} (m : Proc A) (k : A -> Proc B) : Proc B :=
  fun o =>
    match m o with
    | (Next a, o') => k a o'
    | (Return rc, o') => (Return rc, o')
    end.

Definition return_ {A : Type} (rc : Z) : Proc A := fun o => (Return rc, o).

Definition printf (s : string) : Proc unit :=
  fun o => (Next tt, mkOut (stdout o ++ s) (stderr o) (calls o)).

Definition fprintf_stderr (s : string) : Proc unit :=
  fun o => (Next tt, mkOut (stdout o) (stderr o ++ s) (calls o)).

Definition ft_call {A : Type} (c : FT_Call) (answer : A) : Proc A :=
  fun o => (Next answer, mkOut (stdout o) (stderr o) (calls o ++ [c])).

Notation "x <- m ;; k" := (bind m (fun x => k))
  (at level 61, m at next level, right associativity).
Notation "m ;; k" := (bind m (fun _ => k))
  (at level 61, right associativity).

(** The value a procedure hands to its caller, and the streams it leaves. *)
Definition exec (p : Proc Z) (o : Out) : Z * Out :=
  match p o with
  | (Next rc, o') => (rc, o')
  | (Return rc, o') => (rc, o')
  end.

(** [if (error) { fprintf(stderr, msg); return error; }] *)
Definition fail_if (error : Z) (msg : string) : Proc unit :=
  if negb (error =? 0) then fprintf_stderr msg ;; return_ error else ret tt.

(** ** The glyph range, lines 57-67 of [render] *)

Record GlyphRange : Type := mkRange { first : Z; last : Z }.

(** [first_glyph_index] and [last_glyph_index] are [int]s and
    [face->num_glyphs] is a [long]: the comparisons are exact, the two
    assignments of [face->num_glyphs - 1] convert to [int]. *)
Definition clamp_first (first_glyph_index num_glyphs : Z) : Z :=
  if first_glyph_index <? 0 then 0
  else if first_glyph_index >=? num_glyphs then CInt.to_int (num_glyphs - 1)
  else first_glyph_index.

Definition clamp_last (first_glyph_index last_glyph_index num_glyphs : Z) : Z :=
  if (last_glyph_index =? -1) || (last_glyph_index >=? num_glyphs)
  then CInt.to_int (num_glyphs - 1)
  else if last_glyph_index <? first_glyph_index then first_glyph_index
  else last_glyph_index.

Definition resolve (first_glyph_index last_glyph_index num_glyphs : Z) : GlyphRange :=
  let first_glyph_index := clamp_first first_glyph_index num_glyphs in
  let last_glyph_index := clamp_last first_glyph_index last_glyph_index num_glyphs in
  mkRange first_glyph_index last_glyph_index.

(** ** The advance field, lines 102-109 of [render] *)

(** [adv] is the [int] the program holds after [(int)slot->advance.x];
    the result is what [sprintf] leaves in [buf]. *)
Definition advance_text (adv : Z) : string :=
  let adv_int := CInt.shr adv 6 in
  let adv_frac := CInt.rem adv 63 in
  if negb (adv_frac =? 0)
  then fmt_d adv_int ++ "," ++ fmt_d adv_frac
  else fmt_d adv_int.

(** ** The coverage rows, lines 113-129 of [render] *)

(** [*(p + i)] read as an [int]; [p] is an offset into [bm->buffer].  A
    read outside the buffer, which C leaves undefined, gives 0 here. *)
Definition deref (buffer : list byte) (p : Z) : Z :=
  if p <? 0 then 0 else Z.of_N (Byte.to_N (nth (Z.to_nat p) buffer x00)).

(** [while (max_cc >= 0 && *(p + max_cc) == 0) --max_cc;] *)
Fixpoint scan_max_cc (buffer : list byte) (p : Z) (fuel : nat) (max_cc : Z) : Z :=
  match fuel with
  | O => max_cc
  | S fuel' =>
      if (max_cc >=? 0) && (deref buffer (p + max_cc) =? 0)
      then scan_max_cc buffer p fuel' (max_cc - 1)
      else max_cc
  end.

(** [for (int cc = 0; cc < max_cc; ++cc) ...]: the text the loop prints. *)
Fixpoint emit_cols (buffer : list byte) (p : Z) (fuel : nat) (cc max_cc : Z) : string :=
  match fuel with
  | O => ""
  | S fuel' =>
      if cc <? max_cc then
        let v := deref buffer (p + cc) in
        (if negb (v =? 0) then fmt_02x v else "  ")
          ++ emit_cols buffer p fuel' (cc + 1) max_cc
      else ""
  end.

(** One turn of the row loop.  [bm->width - 1] is computed in
    [unsigned int] and converted to [int]; the scan moves [max_cc] at
    most [max_cc + 1] times and the columns loop turns [max_cc] times. *)
Definition row_text (bm : FT_Bitmap) (p : Z) : string :=
  let max_cc := CInt.to_int (CInt.to_uint (width bm - 1)) in
  let max_cc := scan_max_cc (buffer bm) p (Z.to_nat (max_cc + 1)) max_cc in
  ":" ++ emit_cols (buffer bm) p (Z.to_nat max_cc) 0 max_cc ++ LF.

(** [for (unsigned int rc = 0; rc < bm->rows; ++rc, p += bm->pitch) ...] *)
Fixpoint rows_text (bm : FT_Bitmap) (fuel : nat) (rc p : Z) : string :=
  match fuel with
  | O => ""
  | S fuel' =>
      if rc <? rows bm
      then row_text bm p ++ rows_text bm fuel' (rc + 1) (p + pitch bm)
      else ""
  end.

Definition bitmap_text (bm : FT_Bitmap) : string :=
  rows_text bm (Z.to_nat (rows bm)) 0 0.

(** The ["> glyph: %d;%s;%d %d %d %d\n"] line. *)
Definition glyph_line (glyph_index : Z) (slot : FT_GlyphSlot) : string :=
  let bm := bitmap slot in
  let adv := CInt.to_int (advance_x slot) in
  "> glyph: " ++ fmt_d glyph_index ++ ";" ++ advance_text adv ++ ";"
    ++ fmt_d (bitmap_left slot) ++ " " ++ fmt_d (CInt.to_int (- bitmap_top slot))
    ++ " " ++ fmt_d (CInt.to_int (width bm)) ++ " " ++ fmt_d (CInt.to_int (rows bm))
    ++ LF.

(** ** [render] *)

(** The body of the glyph loop, lines 90-129. *)
Definition dump_glyph (w : Env) (glyph_index : Z) : Proc unit :=
  error <- ft_call (CallLoadGlyph glyph_index) (FT_Load_Glyph w glyph_index) ;;
  fail_if error ("failed to load glyph " ++ fmt_d glyph_index ++ LF) ;;
  error <- ft_call (CallRenderGlyph glyph_index) (FT_Render_Glyph w glyph_index) ;;
  fail_if error ("failed to render glyph " ++ fmt_d glyph_index ++ LF) ;;
  let slot := glyph w glyph_index in
  printf (glyph_line glyph_index slot) ;;
  printf (bitmap_text (bitmap slot)).

(** [for (int glyph_index = first_glyph_index;
          glyph_index <= last_glyph_index; glyph_index++) ...] *)
Fixpoint for_glyphs (w : Env) (fuel : nat) (glyph_index last_glyph_index : Z) : Proc unit :=
  match fuel with
  | O => ret tt
  | S fuel' =>
      if glyph_index <=? last_glyph_index
      then dump_glyph w glyph_index ;;
           for_glyphs w fuel' (glyph_index + 1) last_glyph_index
      else ret tt
  end.

(** The header block, lines 69-83. *)
Definition print_header (w : Env) (face_name : string) (face : FT_Face)
    (size first_glyph_index last_glyph_index : Z) : Proc unit :=
  printf ("# generated on " ++ now w ++ LF) ;;
  printf ("> file: " ++ face_name ++ LF) ;;
  printf ("> name: " ++ family_name face ++ "-" ++ style_name face ++ LF) ;;
  printf ("> upem: " ++ fmt_d (units_per_EM face) ++ LF) ;;
  printf ("> ascent: " ++ fmt_d (ascender face) ++ LF) ;;
  printf ("> descent: " ++ fmt_d (- descender face) ++ LF) ;;
  printf ("> size: " ++ fmt_d size ++ LF) ;;
  printf ("> font_glyphs: " ++ fmt_d (num_glyphs face) ++ LF) ;;
  printf ("# first: " ++ fmt_d first_glyph_index ++ LF) ;;
  printf ("# last: " ++ fmt_d last_glyph_index ++ LF) ;;
  printf ("> num_glyphs: "
            ++ fmt_d (CInt.to_int (last_glyph_index - first_glyph_index + 1)) ++ LF).

Definition render (w : Env) (face_name : string)
    (size first_glyph_index last_glyph_index : Z) : Proc Z :=
  error <- ft_call CallInit (FT_Init_FreeType w) ;;
  fail_if error ("failed to init freetype" ++ LF) ;;
  answer <- ft_call (CallNewFace face_name) (FT_New_Face w face_name) ;;
  let error := fst answer in
  let face := snd answer in
  fail_if error ("failed to create face for '" ++ face_name ++ "'" ++ LF) ;;
  (if size <? 4
   then fprintf_stderr ("size " ++ fmt_d size ++ " too small") ;; return_ 100
   else ret tt) ;;
  error <- ft_call (CallSetPixelSizes size) (FT_Set_Pixel_Sizes w size) ;;
  fail_if error ("failed to set size " ++ fmt_d size ++ LF) ;;
  let r := resolve first_glyph_index last_glyph_index (num_glyphs face) in
  let first_glyph_index := first r in
  let last_glyph_index := last r in
  print_header w face_name face size first_glyph_index last_glyph_index ;;
  for_glyphs w (Z.to_nat (last_glyph_index - first_glyph_index + 1))
    first_glyph_index last_glyph_index ;;
  printf ("# EOF" ++ LF) ;;
  ret 0.

(** ** [main] *)

Definition usage : string :=
  " font-name [pixel-height [first-glyph [last-glyph]]]" ++ LF.

Definition main (w : Env) (argv : list string) : Proc Z :=
  let argc := Z.of_nat (List.length argv) in
  if argc <? 2 then
    fprintf_stderr (nth 0 argv "" ++ usage) ;; return_ (-1)
  else
    let font_path := nth 1 argv "" in
    pixel_height <-
      (if argc >? 2 then
         let pixel_height := Stdlib_h.atoi (nth 2 argv "") in
         if (pixel_height <? 1) || (pixel_height >? 1000)
         then fprintf_stderr ("bad pixel height '" ++ nth 2 argv "" ++ "'" ++ LF) ;;
              return_ (-1)
         else ret pixel_height
       else ret 48) ;;
    let first_glyph := if argc >? 3 then Stdlib_h.atoi (nth 3 argv "") else 0 in
    let last_glyph := if argc >? 4 then Stdlib_h.atoi (nth 4 argv "") else -1 in
    render w font_path pixel_height first_glyph last_glyph.

(** ** The row format in the words of the specification

    These definitions do not come from the program: they state what a
    coverage row is, which column is its last non-zero one, how a pixel is
    written and how a reader of the dump decodes a row line.  The program's
    [row_text] is compared with them below. *)

(** The [width] pixels of the row that starts at offset [p]. *)
Definition row_bytes (bm : FT_Bitmap) (p : Z) : list byte :=
  firstn (Z.to_nat (width bm)) (skipn (Z.to_nat p) (buffer bm)).

Definition is_zero (b : byte) : bool := Byte.eqb b x00.

(** The row without its trailing zeros. *)
Fixpoint nonzero_prefix (row : list byte) : list byte :=
  match row with
  | [] => []
  | b :: row' =>
      match nonzero_prefix row' with
      | [] => if is_zero b then [] else [b]
      | kept => b :: kept
      end
  end.

(** Index of the last column with a non-zero value, -1 when there is none. *)
Definition maxCol (row : list byte) : Z :=
  Z.of_nat (List.length (nonzero_prefix row)) - 1.

Definition hex_digit (n : N) : ascii :=
  match n with
  | 0%N => "0" | 1%N => "1" | 2%N => "2" | 3%N => "3"
  | 4%N => "4" | 5%N => "5" | 6%N => "6" | 7%N => "7"
  | 8%N => "8" | 9%N => "9" | 10%N => "a" | 11%N => "b"
  | 12%N => "c" | 13%N => "d" | 14%N => "e" | _ => "f"
  end%char.

Definition hex_pair (b : byte) : string :=
  String (hex_digit (Byte.to_N b / 16)) (String (hex_digit (Byte.to_N b mod 16)) "").

(** Two hex characters for a non-zero pixel, two spaces for a zero one. *)
Definition pair_text (b : byte) : string :=
  if is_zero b then "  " else hex_pair b.

(** The row line the specification describes: the delimiter, then a pair
    for each of the columns [0 .. maxCol - 1], then the line break. *)
Definition encoded_row (row : list byte) : string :=
  ":" ++ String.concat "" (map pair_text (firstn (Z.to_nat (maxCol row)) row)) ++ LF.

Definition hex_value (c : ascii) : option N :=
  let n := N_of_ascii c in
  if (48 <=? n)%N && (n <=? 57)%N then Some (n - 48)%N
  else if (97 <=? n)%N && (n <=? 102)%N then Some (n - 87)%N
  else if (65 <=? n)%N && (n <=? 70)%N then Some (n - 55)%N
  else None.

(** A pair of spaces is 0, a pair of hex digits is its value. *)
Definition decode_pair (hi lo : ascii) : option byte :=
  if Ascii.eqb hi " " && Ascii.eqb lo " " then Some x00
  else
    match hex_value hi, hex_value lo with
    | Some h, Some l => Byte.of_N (16 * h + l)
    | _, _ => None
    end.

Fixpoint decode_pairs (s : string) : option (list byte) :=
  match s with
  | EmptyString => Some []
  | String hi (String lo s') =>
      match decode_pair hi lo, decode_pairs s' with
      | Some b, Some row => Some (b :: row)
      | _, _ => None
      end
  | String _ EmptyString => None
  end.

(** The line without its final line break. *)
Fixpoint chomp (s : string) : string :=
  match s with
  | EmptyString => EmptyString
  | String c s' =>
      match s' with
      | EmptyString => if Ascii.eqb c "010" then EmptyString else s
      | _ => String c (chomp s')
      end
  end.

(** Decoding a row line of a glyph [width] columns wide: the columns the
    line leaves out are zero. *)
Definition decode_row (width : nat) (line : string) : option (list byte) :=
  match line with
  | String ":" body =>
      match decode_pairs (chomp body) with
      | Some cells => Some (cells ++ repeat x00 (width - List.length cells)%nat)%list
      | None => None
      end
  | _ => None
  end.

(** ** The dump a run is meant to produce *)

(** The same font and clock with every FreeType call succeeding. *)
Definition no_errors (w : Env) : Env :=
  mkEnv 0 (fun face_name => (0, snd (FT_New_Face w face_name)))
        (fun _ => 0) (fun _ => 0) (fun _ => 0) (glyph w) (now w).

(** The text of the header block: the lines of the font, then the
    lines of the range. *)
Definition font_lines (w : Env) (face_name : string) (face : FT_Face) (size : Z) : string :=
  ("# generated on " ++ now w ++ LF)
    ++ ("> file: " ++ face_name ++ LF)
    ++ ("> name: " ++ family_name face ++ "-" ++ style_name face ++ LF)
    ++ ("> upem: " ++ fmt_d (units_per_EM face) ++ LF)
    ++ ("> ascent: " ++ fmt_d (ascender face) ++ LF)
    ++ ("> descent: " ++ fmt_d (- descender face) ++ LF)
    ++ ("> size: " ++ fmt_d size ++ LF)
    ++ ("> font_glyphs: " ++ fmt_d (num_glyphs face) ++ LF).

Definition range_lines (first_glyph_index last_glyph_index : Z) : string :=
  ("# first: " ++ fmt_d first_glyph_index ++ LF)
    ++ ("# last: " ++ fmt_d last_glyph_index ++ LF).

Definition count_line (count : Z) : string :=
  "> num_glyphs: " ++ fmt_d count ++ LF.

Definition header_text (w : Env) (face_name : string) (face : FT_Face)
    (size first_glyph_index last_glyph_index : Z) : string :=
  font_lines w face_name face size
    ++ range_lines first_glyph_index last_glyph_index
    ++ count_line (CInt.to_int (last_glyph_index - first_glyph_index + 1)).

(** The record of one glyph, and the error code of the first of its two
    calls that fails (0 when both succeed). *)
Definition glyph_text (w : Env) (glyph_index : Z) : string :=
  glyph_line glyph_index (glyph w glyph_index)
    ++ bitmap_text (bitmap (glyph w glyph_index)).

Definition glyph_error (w : Env) (glyph_index : Z) : Z :=
  if negb (FT_Load_Glyph w glyph_index =? 0) then FT_Load_Glyph w glyph_index
  else FT_Render_Glyph w glyph_index.

(** The records of the glyphs [g], [g + 1], ... ([n] of them at most) up
    to the first glyph that fails, and the error code of that glyph. *)
Fixpoint records_text (w : Env) (n : nat) (g : Z) : string :=
  match n with
  | O => ""
  | S n' =>
      if glyph_error w g =? 0
      then glyph_text w g ++ records_text w n' (g + 1)
      else ""
  end.

Fixpoint first_error (w : Env) (n : nat) (g : Z) : Z :=
  match n with
  | O => 0
  | S n' =>
      if glyph_error w g =? 0 then first_error w n' (g + 1) else glyph_error w g
  end.

(** [s] is the beginning of [t]; [s] is the end of [t]. *)
Definition starts (s t : string) : Prop := exists r, t = s ++ r.
Definition ends (s t : string) : Prop := exists r, t = r ++ s.

(** No character of [s] satisfies [bad]. *)
Fixpoint free_of (bad : ascii -> bool) (s : string) : bool :=
  match s with
  | EmptyString => true
  | String c s' => negb (bad c) && free_of bad s'
  end.

Definition is_hash (c : ascii) : bool := Ascii.eqb c "#".

(** ** Notions for the properties of the whole program *)

(** The number a decimal text stands for: an optional ['-'], then the
    digits as [atoi] reads them. *)
Definition decimal_value (s : string) : Z :=
  match s with
  | String "-" s' => - Stdlib_h.digits s' 0
  | _ => Stdlib_h.digits s 0
  end.

(** The glyph indices of a range, in the order of the loop. *)
Definition glyph_indices (first_glyph_index last_glyph_index : Z) : list Z :=
  map (fun i : nat => first_glyph_index + Z.of_nat i)
      (seq 0 (Z.to_nat (last_glyph_index - first_glyph_index + 1))).

(** The two FreeType calls the loop makes for a glyph. *)
Definition glyph_calls (glyph_index : Z) : list FT_Call :=
  [CallLoadGlyph glyph_index; CallRenderGlyph glyph_index].

(** The calls every run that reaches the glyph loop has made. *)
Definition setup_calls (face_name : string) (size : Z) : list FT_Call :=
  [CallInit; CallNewFace face_name; CallSetPixelSizes size].

(** The diagnostic of a glyph that fails. *)
Definition glyph_diagnostic (w : Env) (glyph_index : Z) : string :=
  if negb (FT_Load_Glyph w glyph_index =? 0)
  then "failed to load glyph " ++ fmt_d glyph_index ++ LF
  else "failed to render glyph " ++ fmt_d glyph_index ++ LF.

(** The calls made for a glyph that fails. *)
Definition failed_glyph_calls (w : Env) (glyph_index : Z) : list FT_Call :=
  if negb (FT_Load_Glyph w glyph_index =? 0)
  then [CallLoadGlyph glyph_index]
  else glyph_calls glyph_index.

(** The same FreeType answers at another time of the clock. *)
Definition with_now (w : Env) (t : string) : Env :=
  mkEnv (FT_Init_FreeType w) (FT_New_Face w) (FT_Set_Pixel_Sizes w)
        (FT_Load_Glyph w) (FT_Render_Glyph w) (glyph w) t.

Fixpoint count_char (c : ascii) (s : string) : nat :=
  match s with
  | EmptyString => O
  | String c' s' => ((if Ascii.eqb c' c then 1 else 0) + count_char c s')%nat
  end.

Definition is_comma (c : ascii) : bool := Ascii.eqb c ",".
Definition is_lf (c : ascii) : bool := Ascii.eqb c "010".
Definition is_colon (c : ascii) : bool := Ascii.eqb c ":".

(** * Properties *)

(** ** Strings *)

Section StringFacts.

Lemma sapp_assoc (a b c : string) : (a ++ b) ++ c = a ++ (b ++ c).
Proof. induction a as [|x a IH]; simpl; [reflexivity | now rewrite IH]. Qed.

Lemma sapp_nil_r (a : string) : a ++ "" = a.
Proof. induction a as [|x a IH]; simpl; [reflexivity | now rewrite IH]. Qed.

Lemma slength_app (a b : string) :
  String.length (a ++ b) = (String.length a + String.length b)%nat.
Proof. induction a as [|x a IH]; simpl; [reflexivity | now rewrite IH]. Qed.

Lemma sapp_inv_head (a b c : string) : a ++ b = a ++ c -> b = c.
Proof.
  induction a as [|x a IH]; simpl; intros H; [exact H | ].
  apply IH. now inversion H.
Qed.

Lemma free_of_app (bad : ascii -> bool) (a b : string) :
  free_of bad (a ++ b) = free_of bad a && free_of bad b.
Proof.
  induction a as [|x a IH]; simpl; [reflexivity | ].
  rewrite IH. now rewrite andb_assoc.
Qed.

(** Two ways to cut one string: the longer tail ends with the shorter. *)
Lemma sapp_eq_tail (a b c d : string) :
  a ++ b = c ++ d -> (String.length d <= String.length b)%nat -> ends d b.
Proof.
  revert c. induction a as [|x a IH]; intros c H Hlen; simpl in H.
  - exists c. exact H.
  - destruct c as [|y c]; simpl in H.
    + subst d. simpl in Hlen. rewrite slength_app in Hlen. lia.
    + inversion H. eapply IH; eauto.
Qed.

Lemma starts_refl (s : string) : starts s s.
Proof. exists "". now rewrite sapp_nil_r. Qed.

Lemma starts_nil (s : string) : starts "" s.
Proof. now exists s. Qed.

Lemma starts_trans (a b c : string) : starts a b -> starts b c -> starts a c.
Proof.
  intros [r ->] [r' ->]. exists (r ++ r'). apply sapp_assoc.
Qed.

Lemma starts_app (a b : string) : starts a (a ++ b).
Proof. now exists b. Qed.

Lemma starts_app_l (a b c : string) : starts b c -> starts (a ++ b) (a ++ c).
Proof. intros [r ->]. exists r. now rewrite sapp_assoc. Qed.

(** A text that holds no ['#'] in its last six characters does not end
    with the marker line. *)
Lemma no_marker_at_end (pre tail : string) :
  free_of is_hash tail = true -> (6 <= String.length tail)%nat ->
  ~ ends ("# EOF" ++ LF) (pre ++ tail).
Proof.
  intros Hfree Hlen [r Hr].
  destruct (sapp_eq_tail pre tail r ("# EOF" ++ LF) Hr) as [q Hq];
    [simpl; lia | ].
  rewrite Hq, free_of_app in Hfree.
  apply andb_true_iff in Hfree. destruct Hfree as [_ Hfree].
  discriminate Hfree.
Qed.

End StringFacts.

(** ** C integers *)

Lemma to_int_id (z : Z) : CInt.in_int z -> CInt.to_int z = z.
Proof.
  unfold CInt.in_int, CInt.INT_MIN, CInt.INT_MAX, CInt.to_int. intros H.
  rewrite Z.mod_small; lia.
Qed.

Lemma to_int_range (z : Z) : CInt.in_int (CInt.to_int z).
Proof.
  unfold CInt.in_int, CInt.INT_MIN, CInt.INT_MAX, CInt.to_int.
  pose proof (Z.mod_pos_bound (z + 2147483648) 4294967296 ltac:(lia)). lia.
Qed.

Lemma shr_6_floor (adv : Z) : CInt.shr adv 6 = adv / 64.
Proof. unfold CInt.shr. now rewrite Z.shiftr_div_pow2 by lia. Qed.

(** ** The glyph range *)

Ltac range_cases :=
  unfold resolve, clamp_first, clamp_last; simpl;
  repeat match goal with
         | |- context [if ?c then _ else _] =>
             let E := fresh "E" in destruct c eqn:E
         end;
  repeat match goal with
         | H : (_ || _) = true |- _ => apply orb_true_iff in H
         | H : (_ || _) = false |- _ => apply orb_false_iff in H; destruct H
         end.

Lemma clamp_first_range (requestedFirst glyphCount : Z) :
  0 < glyphCount <= CInt.INT_MAX ->
  0 <= clamp_first requestedFirst glyphCount <= glyphCount - 1.
Proof.
  intros Hn. unfold CInt.INT_MAX in Hn.
  assert (Hid : CInt.to_int (glyphCount - 1) = glyphCount - 1)
    by (apply to_int_id; unfold CInt.in_int, CInt.INT_MIN, CInt.INT_MAX; lia).
  unfold clamp_first. rewrite Hid.
  destruct (requestedFirst <? 0) eqn:E1; [lia | ].
  destruct (requestedFirst >=? glyphCount) eqn:E2; lia.
Qed.

Lemma resolve_bounds (requestedFirst requestedLast glyphCount : Z) :
  0 < glyphCount <= CInt.INT_MAX ->
  0 <= first (resolve requestedFirst requestedLast glyphCount)
  /\ first (resolve requestedFirst requestedLast glyphCount)
     <= last (resolve requestedFirst requestedLast glyphCount)
  /\ last (resolve requestedFirst requestedLast glyphCount) <= glyphCount - 1.
Proof.
  intros Hn.
  pose proof (clamp_first_range requestedFirst glyphCount Hn) as Hf.
  unfold CInt.INT_MAX in Hn.
  assert (Hid : CInt.to_int (glyphCount - 1) = glyphCount - 1)
    by (apply to_int_id; unfold CInt.in_int, CInt.INT_MIN, CInt.INT_MAX; lia).
  unfold resolve, clamp_last; simpl. rewrite Hid.
  destruct ((requestedLast =? -1) || (requestedLast >=? glyphCount)) eqn:E1;
    [lia | ].
  apply orb_false_iff in E1. destruct E1 as [E1 E2].
  destruct (requestedLast <? clamp_first requestedFirst glyphCount) eqn:E3; lia.
Qed.

(** C3: for every glyph count > 0 (an [int]) and all requested first and
    last indices, the resolved range lies in [0, glyphCount - 1] with
    first <= last; resolve(0, -1, 10) is {0, 9} and resolve(5, 2, 10) is
    {5, 5}. *)
Theorem resolve_in_range (requestedFirst requestedLast glyphCount : Z) :
  0 < glyphCount <= CInt.INT_MAX ->
  let r := resolve requestedFirst requestedLast glyphCount in
  (0 <= first r /\ first r <= last r /\ last r <= glyphCount - 1)
  /\ resolve 0 (-1) 10 = mkRange 0 9
  /\ resolve 5 2 10 = mkRange 5 5.
Proof.
  intros Hn r. split; [ | split; reflexivity].
  subst r. now apply resolve_bounds.
Qed.

Lemma resolve_in_range_witness :
  let r := resolve (-3) 100 5 in
  (0 <= first r /\ first r <= last r /\ last r <= 5 - 1)
  /\ resolve 0 (-1) 10 = mkRange 0 9
  /\ resolve 5 2 10 = mkRange 5 5.
Proof.
  apply (resolve_in_range (-3) 100 5). unfold CInt.INT_MAX. lia.
Defined.

(** C9: for every glyph count > 0 and every requested last index below
    -1, the resolver returns {first, first} with first the clamped
    requested first index (0 for a negative request, glyphCount - 1 for a
    request at or above the glyph count, the request itself otherwise):
    such a last index is not the sentinel, it takes the inverted-range
    branch and is not clamped to glyphCount - 1. *)
Theorem resolve_negative_last (requestedFirst requestedLast glyphCount : Z) :
  0 < glyphCount <= CInt.INT_MAX ->
  requestedLast < -1 ->
  let f := clamp_first requestedFirst glyphCount in
  resolve requestedFirst requestedLast glyphCount = mkRange f f
  /\ 0 <= f <= glyphCount - 1
  /\ (requestedFirst < 0 -> f = 0)
  /\ (glyphCount <= requestedFirst -> f = glyphCount - 1)
  /\ (0 <= requestedFirst < glyphCount -> f = requestedFirst)
  /\ (f < glyphCount - 1 ->
      last (resolve requestedFirst requestedLast glyphCount) <> glyphCount - 1)
  /\ resolve 0 (-5) 10 = mkRange 0 0
  /\ resolve 7 (-5) 10 = mkRange 7 7
  /\ resolve (-3) (-5) 10 = mkRange 0 0
  /\ resolve 12 (-5) 10 = mkRange 9 9.
Proof.
  intros Hn Hl f.
  pose proof (clamp_first_range requestedFirst glyphCount Hn) as Hf.
  fold f in Hf.
  assert (E : resolve requestedFirst requestedLast glyphCount = mkRange f f).
  { unfold resolve, clamp_last. fold f.
    replace (requestedLast =? -1) with false by (symmetry; apply Z.eqb_neq; lia).
    replace (requestedLast >=? glyphCount) with false
      by (symmetry; rewrite Z.geb_leb; apply Z.leb_gt; lia).
    replace (requestedLast <? f) with true by (symmetry; apply Z.ltb_lt; lia).
    reflexivity. }
  assert (Hid : CInt.to_int (glyphCount - 1) = glyphCount - 1)
    by (apply to_int_id; unfold CInt.in_int, CInt.INT_MIN, CInt.INT_MAX in *; lia).
  assert (Hneg : requestedFirst < 0 -> f = 0).
  { intros H. unfold f, clamp_first.
    now replace (requestedFirst <? 0) with true by (symmetry; apply Z.ltb_lt; lia). }
  assert (Hhigh : glyphCount <= requestedFirst -> f = glyphCount - 1).
  { intros H. unfold f, clamp_first.
    replace (requestedFirst <? 0) with false by (symmetry; apply Z.ltb_ge; lia).
    now replace (requestedFirst >=? glyphCount) with true
      by (symmetry; rewrite Z.geb_leb; apply Z.leb_le; lia). }
  assert (Hmid : 0 <= requestedFirst < glyphCount -> f = requestedFirst).
  { intros H. unfold f, clamp_first.
    replace (requestedFirst <? 0) with false by (symmetry; apply Z.ltb_ge; lia).
    now replace (requestedFirst >=? glyphCount) with false
      by (symmetry; rewrite Z.geb_leb; apply Z.leb_gt; lia). }
  split; [exact E | ].
  split; [exact Hf | ].
  split; [exact Hneg | ].
  split; [exact Hhigh | ].
  split; [exact Hmid | ].
  split; [intros Hlt; rewrite E; simpl; lia | ].
  repeat split; reflexivity.
Qed.

Lemma resolve_negative_last_witness :
  resolve 7 (-5) 10 = mkRange 7 7
  /\ resolve 7 (-5) 10 = mkRange (clamp_first 7 10) (clamp_first 7 10)
  /\ clamp_first 7 10 = 7.
Proof.
  assert (Hn : 0 < 10 <= CInt.INT_MAX) by (unfold CInt.INT_MAX; lia).
  assert (Hl : -5 < -1) by lia.
  pose proof (resolve_negative_last 7 (-5) 10 Hn Hl) as H. cbv zeta in H.
  destruct H as (H1 & _ & _ & _ & H5 & _).
  split; [reflexivity | split; [exact H1 | apply H5; lia]].
Defined.

(** ** The advance field *)

(** C4: the advance is written from whole = adv >> 6, the floor of
    adv / 64, and frac = adv % 63 (63, not 64; the remainder of C, which is
    adv mod 63 for adv >= 0 and takes the sign of adv below 0), as
    "whole,frac" when frac is not 0 and as "whole" when it is; the text is
    a function of adv. *)
Theorem advance_encoding (adv : Z) :
  let whole := adv / 64 in
  let frac := Z.rem adv 63 in
  advance_text adv
    = (if frac =? 0 then fmt_d whole else fmt_d whole ++ "," ++ fmt_d frac)
  /\ 64 * whole <= adv < 64 * whole + 64
  /\ (adv = 63 * (adv ÷ 63) + frac /\ Z.abs frac < 63)
  /\ (0 <= adv -> frac = adv mod 63)
  /\ (adv < 0 -> frac = - ((- adv) mod 63))
  /\ (forall adv', adv' = adv -> advance_text adv' = advance_text adv).
Proof.
  intros whole frac. subst whole frac.
  repeat split.
  - unfold advance_text, CInt.rem. rewrite shr_6_floor.
    now destruct (Z.rem adv 63 =? 0).
  - pose proof (Z.mod_pos_bound adv 64 ltac:(lia)).
    pose proof (Z.div_mod adv 64 ltac:(lia)). lia.
  - pose proof (Z.mod_pos_bound adv 64 ltac:(lia)).
    pose proof (Z.div_mod adv 64 ltac:(lia)). lia.
  - apply Z.quot_rem'.
  - pose proof (Z.rem_bound_abs adv 63 ltac:(lia)). lia.
  - intros H. apply Z.rem_mod_nonneg; lia.
  - intros H. rewrite <- (Z.opp_involutive adv) at 1.
    rewrite Z.rem_opp_l by lia. f_equal. apply Z.rem_mod_nonneg; lia.
  - intros adv' ->. reflexivity.
Qed.

(** C10: the advance encoding is not injective: 0 and 63 are both written
    "0", so no decoder gives back the 26.6 value from the text. *)
Theorem advance_not_injective :
  advance_text 0 = "0" /\ advance_text 63 = "0"
  /\ ~ (forall a b : Z, advance_text a = advance_text b -> a = b)
  /\ ~ (exists decode : string -> Z,
          forall adv : Z, CInt.in_int adv -> decode (advance_text adv) = adv).
Proof.
  split; [reflexivity | split; [reflexivity | split]].
  - intros H. specialize (H 0 63 eq_refl). discriminate H.
  - intros [decode H].
    assert (H0 : decode (advance_text 0) = 0)
      by (apply H; unfold CInt.in_int, CInt.INT_MIN, CInt.INT_MAX; lia).
    assert (H63 : decode (advance_text 63) = 63)
      by (apply H; unfold CInt.in_int, CInt.INT_MIN, CInt.INT_MAX; lia).
    change (advance_text 63) with (advance_text 0) in H63. lia.
Qed.

(** ** The coverage rows *)

Lemma byte_value_zero (b : byte) :
  (Z.of_N (Byte.to_N b) =? 0) = is_zero b.
Proof. destruct b; reflexivity. Qed.

Lemma is_zero_iff (b : byte) : is_zero b = true <-> b = x00.
Proof.
  unfold is_zero. split; [apply byte_dec_bl | apply byte_dec_lb].
Qed.

(** What [printf] writes for a pixel is the pair of the specification. *)
Lemma printed_pair (b : byte) :
  (if negb (Z.of_N (Byte.to_N b) =? 0)
   then fmt_02x (Z.of_N (Byte.to_N b)) else "  ") = pair_text b.
Proof. destruct b; reflexivity. Qed.

Lemma pair_text_length (b : byte) : String.length (pair_text b) = 2%nat.
Proof. unfold pair_text, hex_pair. now destruct (is_zero b). Qed.

Lemma concat_cons (x : string) (xs : list string) :
  String.concat "" (x :: xs) = x ++ String.concat "" xs.
Proof. destruct xs; simpl; [now rewrite sapp_nil_r | reflexivity]. Qed.

Lemma concat_app (xs ys : list string) :
  String.concat "" (xs ++ ys) = String.concat "" xs ++ String.concat "" ys.
Proof.
  induction xs as [|x xs IH]; [reflexivity | ].
  rewrite <- app_comm_cons, !concat_cons, IH. now rewrite sapp_assoc.
Qed.

Lemma pairs_length (l : list byte) :
  String.length (String.concat "" (map pair_text l)) = (2 * List.length l)%nat.
Proof.
  induction l as [|b l IH]; [reflexivity | ].
  rewrite map_cons, concat_cons, slength_app, pair_text_length, IH.
  simpl List.length. lia.
Qed.

Lemma nonzero_prefix_snoc (l : list byte) (b : byte) :
  nonzero_prefix (l ++ [b]) = if is_zero b then nonzero_prefix l else (l ++ [b])%list.
Proof.
  induction l as [|a l IH]; simpl.
  - now destruct (is_zero b).
  - rewrite IH. destruct (is_zero b); [reflexivity | ].
    now destruct l.
Qed.

Lemma nonzero_prefix_split (row : list byte) :
  exists k : nat, row = (nonzero_prefix row ++ repeat x00 k)%list.
Proof.
  induction row as [|b row [k IH]]; [now exists 0%nat | ].
  simpl. destruct (nonzero_prefix row) as [|c kept] eqn:E.
  - destruct (is_zero b) eqn:Eb.
    + apply is_zero_iff in Eb. subst b. exists (S k). simpl in *. now rewrite <- IH.
    + exists k. simpl in *. now rewrite <- IH.
  - exists k. simpl in *. now rewrite <- IH.
Qed.

Lemma nonzero_prefix_last (row : list byte) :
  nonzero_prefix row <> [] ->
  nth (List.length (nonzero_prefix row) - 1) (nonzero_prefix row) x00 <> x00.
Proof.
  induction row as [|b row IH]; simpl; [congruence | ].
  destruct (nonzero_prefix row) as [|c kept] eqn:E.
  - destruct (is_zero b) eqn:Eb; [congruence | ].
    intros _ H. simpl in H. subst b. discriminate Eb.
  - intros _. specialize (IH ltac:(discriminate)).
    simpl in *. now rewrite Nat.sub_0_r in *.
Qed.

Lemma maxCol_bounds (row : list byte) :
  -1 <= maxCol row < Z.of_nat (List.length row).
Proof.
  unfold maxCol. destruct (nonzero_prefix_split row) as [k Hk].
  apply (f_equal (@List.length byte)) in Hk.
  rewrite length_app in Hk. lia.
Qed.

Lemma maxCol_nonzero (row : list byte) :
  0 <= maxCol row -> nth (Z.to_nat (maxCol row)) row x00 <> x00.
Proof.
  unfold maxCol. intros H.
  destruct (nonzero_prefix_split row) as [k Hk].
  assert (Hne : nonzero_prefix row <> []).
  { intros E. rewrite E in H. simpl in H. lia. }
  pose proof (nonzero_prefix_last row Hne) as Hlast.
  replace (Z.to_nat (Z.of_nat (List.length (nonzero_prefix row)) - 1))
    with (List.length (nonzero_prefix row) - 1)%nat by lia.
  rewrite Hk at 2. rewrite app_nth1; [exact Hlast | ].
  destruct (nonzero_prefix row); [congruence | simpl; lia].
Qed.

Lemma maxCol_last (row : list byte) (c : Z) :
  maxCol row < c -> nth (Z.to_nat c) row x00 = x00.
Proof.
  unfold maxCol. intros H.
  destruct (nonzero_prefix_split row) as [k Hk].
  rewrite Hk at 1. rewrite app_nth2 by lia.
  apply nth_repeat.
Qed.

Lemma maxCol_all_zero (row : list byte) :
  (forall b, In b row -> b = x00) -> maxCol row = -1.
Proof.
  intros H. pose proof (maxCol_bounds row) as Hb.
  destruct (Z.eq_dec (maxCol row) (-1)) as [E|E]; [exact E | exfalso].
  apply (maxCol_nonzero row); [lia | ].
  apply H, nth_In. lia.
Qed.

Section RowReads.

Variables (buf : list byte) (p : Z).
Hypothesis p_nonneg : 0 <= p.

Lemma deref_skipn (c : Z) :
  0 <= c ->
  deref buf (p + c) = Z.of_N (Byte.to_N (nth (Z.to_nat c) (skipn (Z.to_nat p) buf) x00)).
Proof.
  intros Hc. unfold deref.
  replace (p + c <? 0) with false by (symmetry; apply Z.ltb_ge; lia).
  rewrite nth_skipn. now rewrite Z2Nat.inj_add by lia.
Qed.

(** [l] is what the program reads in the columns [cc, cc + |l|). *)
Let reads (cc : Z) (l : list byte) : Prop :=
  forall i : nat, (i < List.length l)%nat ->
    deref buf (p + (cc + Z.of_nat i)) = Z.of_N (Byte.to_N (nth i l x00)).

Lemma scan_max_cc_spec (l : list byte) :
  reads 0 l ->
  scan_max_cc buf p (List.length l) (Z.of_nat (List.length l) - 1) = maxCol l.
Proof.
  induction l as [|b l IH] using rev_ind; intros Hr; [reflexivity | ].
  rewrite length_app. simpl List.length.
  replace (List.length l + 1)%nat with (S (List.length l)) by lia.
  replace (Z.of_nat (S (List.length l)) - 1) with (Z.of_nat (List.length l)) by lia.
  simpl scan_max_cc.
  replace (Z.of_nat (List.length l) >=? 0) with true
    by (symmetry; rewrite Z.geb_leb; apply Z.leb_le; lia).
  assert (Hb : deref buf (p + Z.of_nat (List.length l)) = Z.of_N (Byte.to_N b)).
  { specialize (Hr (List.length l)). rewrite length_app in Hr. simpl in Hr.
    rewrite nth_middle in Hr. apply Hr. lia. }
  rewrite Hb, byte_value_zero. simpl andb.
  unfold maxCol. rewrite nonzero_prefix_snoc.
  destruct (is_zero b).
  - apply IH. intros i Hi. specialize (Hr i).
    rewrite length_app, app_nth1 in Hr by exact Hi. apply Hr. lia.
  - rewrite length_app. simpl. lia.
Qed.

Lemma emit_cols_spec (l : list byte) (cc : Z) :
  reads cc l ->
  emit_cols buf p (List.length l) cc (cc + Z.of_nat (List.length l))
  = String.concat "" (map pair_text l).
Proof.
  revert cc. induction l as [|b l IH]; intros cc Hr; [reflexivity | ].
  rewrite map_cons, concat_cons.
  assert (Hb : deref buf (p + cc) = Z.of_N (Byte.to_N b)).
  { specialize (Hr 0%nat). simpl in Hr. rewrite Z.add_0_r in Hr. apply Hr. lia. }
  assert (Hm : cc + Z.of_nat (List.length (b :: l))
               = cc + 1 + Z.of_nat (List.length l)) by (simpl List.length; lia).
  rewrite Hm. change (List.length (b :: l)) with (S (List.length l)).
  cbn [emit_cols].
  replace (cc <? cc + 1 + Z.of_nat (List.length l)) with true
    by (symmetry; apply Z.ltb_lt; lia).
  rewrite Hb, printed_pair. f_equal.
  apply IH. intros i Hi. specialize (Hr (S i)). simpl in Hr.
  replace (cc + 1 + Z.of_nat i) with (cc + Z.pos (Pos.of_succ_nat i)) by lia.
  apply Hr. lia.
Qed.

Lemma reads_firstn (n : nat) :
  reads 0 (firstn n (skipn (Z.to_nat p) buf)).
Proof.
  intros i Hi. rewrite length_firstn in Hi.
  rewrite nth_firstn.
  replace (i <? n)%nat with true by (symmetry; apply Nat.ltb_lt; lia).
  rewrite Z.add_0_l, deref_skipn by lia. now rewrite Nat2Z.id.
Qed.

End RowReads.

Lemma to_int_to_uint (z : Z) : CInt.to_int (CInt.to_uint z) = CInt.to_int z.
Proof.
  unfold CInt.to_int, CInt.to_uint. f_equal.
  rewrite Zplus_mod_idemp_l. reflexivity.
Qed.

Lemma row_bytes_length (bm : FT_Bitmap) (p : Z) :
  0 <= width bm -> 0 <= p ->
  p + width bm <= Z.of_nat (List.length (buffer bm)) ->
  List.length (row_bytes bm p) = Z.to_nat (width bm).
Proof.
  intros Hw Hp Hin. unfold row_bytes.
  rewrite length_firstn, length_skipn. lia.
Qed.

(** The scan of a row in bounds ends on the last non-zero column. *)
Lemma scan_finds_maxCol (bm : FT_Bitmap) (p : Z) :
  0 <= width bm <= CInt.INT_MAX -> 0 <= p ->
  p + width bm <= Z.of_nat (List.length (buffer bm)) ->
  scan_max_cc (buffer bm) p
    (Z.to_nat (CInt.to_int (CInt.to_uint (width bm - 1)) + 1))
    (CInt.to_int (CInt.to_uint (width bm - 1)))
  = maxCol (row_bytes bm p).
Proof.
  intros Hw Hp Hin.
  rewrite to_int_to_uint, to_int_id
    by (unfold CInt.in_int, CInt.INT_MIN, CInt.INT_MAX in *; lia).
  pose proof (row_bytes_length bm p ltac:(lia) Hp Hin) as Hlen.
  replace (Z.to_nat (width bm - 1 + 1)) with (List.length (row_bytes bm p)) by lia.
  replace (width bm - 1) with (Z.of_nat (List.length (row_bytes bm p)) - 1) by lia.
  apply scan_max_cc_spec.
  unfold row_bytes. apply reads_firstn; exact Hp.
Qed.

Lemma row_text_encoded (bm : FT_Bitmap) (p : Z) :
  0 <= width bm <= CInt.INT_MAX -> 0 <= p ->
  p + width bm <= Z.of_nat (List.length (buffer bm)) ->
  row_text bm p = encoded_row (row_bytes bm p).
Proof.
  intros Hw Hp Hin. unfold row_text, encoded_row.
  rewrite (scan_finds_maxCol bm p Hw Hp Hin).
  pose proof (maxCol_bounds (row_bytes bm p)) as Hb.
  pose proof (row_bytes_length bm p ltac:(lia) Hp Hin) as Hlen.
  set (m := maxCol (row_bytes bm p)) in *.
  do 2 f_equal.
  destruct (Z_lt_le_dec m 0) as [Hneg|Hpos].
  - replace (Z.to_nat m) with 0%nat by lia. reflexivity.
  - set (l := firstn (Z.to_nat m) (row_bytes bm p)).
    assert (Hl : List.length l = Z.to_nat m)
      by (unfold l; rewrite length_firstn; lia).
    rewrite <- Hl.
    assert (Hm : m = 0 + Z.of_nat (List.length l)) by lia.
    rewrite Hm. apply emit_cols_spec.
    intros i Hi. unfold l in *. rewrite nth_firstn.
    replace (i <? Z.to_nat m)%nat with true by (symmetry; apply Nat.ltb_lt; lia).
    apply (reads_firstn (buffer bm) p Hp (Z.to_nat (width bm)) i). fold (row_bytes bm p). lia.
Qed.

Lemma rows_text_spec (bm : FT_Bitmap) (fuel : nat) (rc p : Z) :
  fuel = Z.to_nat (rows bm - rc) ->
  rows_text bm fuel rc p
  = String.concat ""
      (map (fun i : nat => row_text bm (p + Z.of_nat i * pitch bm)) (seq 0 fuel)).
Proof.
  revert rc p. induction fuel as [|fuel IH]; intros rc p Hf; [reflexivity | ].
  cbn [rows_text].
  replace (rc <? rows bm) with true by (symmetry; apply Z.ltb_lt; lia).
  rewrite <- cons_seq, map_cons, concat_cons, <- seq_shift, map_map.
  replace (p + Z.of_nat 0 * pitch bm) with p by lia. f_equal.
  rewrite (IH (rc + 1) (p + pitch bm)) by lia. f_equal.
  apply map_ext. intros i. f_equal. lia.
Qed.

(** C1: the encoder of a coverage row finds maxCol, the last column with
    a non-zero value (-1 when there is none), by the scan from the right;
    it writes ':' and then one pair for each of the columns 0 .. maxCol - 1
    only (two hex characters for a non-zero pixel, two spaces for a zero
    one), so the column maxCol itself and all columns after it are left
    out, and a row of zeros is the ':' alone; the rows are written from
    the top, [pitch] bytes apart. *)
Theorem row_encoding (bm : FT_Bitmap) (p : Z) :
  0 <= width bm <= CInt.INT_MAX ->
  0 <= p ->
  p + width bm <= Z.of_nat (List.length (buffer bm)) ->
  let row := row_bytes bm p in
  let m := maxCol row in
  List.length row = Z.to_nat (width bm)
  /\ -1 <= m < width bm
  /\ (0 <= m -> nth (Z.to_nat m) row x00 <> x00)
  /\ (forall c : Z, m < c -> nth (Z.to_nat c) row x00 = x00)
  /\ scan_max_cc (buffer bm) p
       (Z.to_nat (CInt.to_int (CInt.to_uint (width bm - 1)) + 1))
       (CInt.to_int (CInt.to_uint (width bm - 1))) = m
  /\ row_text bm p
     = ":" ++ String.concat "" (map pair_text (firstn (Z.to_nat m) row)) ++ LF
  /\ String.length (row_text bm p) = (2 + 2 * Z.to_nat m)%nat
  /\ ((forall b : byte, In b row -> b = x00) -> row_text bm p = ":" ++ LF)
  /\ bitmap_text bm
     = String.concat ""
         (map (fun r : nat => row_text bm (Z.of_nat r * pitch bm))
              (seq 0 (Z.to_nat (rows bm)))).
Proof.
  intros Hw Hp Hin row m.
  pose proof (row_bytes_length bm p ltac:(lia) Hp Hin) as Hlen.
  pose proof (maxCol_bounds row) as Hb. fold m in Hb.
  pose proof (row_text_encoded bm p Hw Hp Hin) as Henc.
  unfold encoded_row in Henc. fold row m in Henc, Hlen.
  split; [exact Hlen | ].
  split; [lia | ].
  split; [apply maxCol_nonzero | ].
  split; [apply maxCol_last | ].
  split; [now apply scan_finds_maxCol | ].
  split; [exact Henc | ].
  split.
  - rewrite Henc. cbn [String.append String.length].
    rewrite slength_app, pairs_length, length_firstn. simpl String.length. lia.
  - split.
    + intros Hz. rewrite Henc.
      pose proof (maxCol_all_zero row Hz) as Hm. fold m in Hm.
      rewrite Hm. reflexivity.
    + unfold bitmap_text. rewrite (rows_text_spec bm _ 0 0) by lia.
      f_equal.
Qed.

Lemma row_encoding_witness :
  let bm := mkBitmap 1 4 4 [x00; x12; xab; x00] in
  row_text bm 0 = ":  12" ++ LF.
Proof.
  intros bm.
  pose proof (row_encoding bm 0) as H.
  assert (Hw : 0 <= width bm <= CInt.INT_MAX) by (unfold CInt.INT_MAX; simpl; lia).
  assert (Hin : 0 + width bm <= Z.of_nat (List.length (buffer bm))) by (simpl; lia).
  specialize (H Hw (Z.le_refl 0) Hin).
  destruct H as (_ & _ & _ & _ & _ & H & _).
  exact H.
Defined.

(** *** Reading a row line back *)

Lemma decode_pair_text (b : byte) :
  exists hi lo : ascii,
    pair_text b = String hi (String lo "") /\ decode_pair hi lo = Some b.
Proof. destruct b; do 2 eexists; split; reflexivity. Qed.

Lemma decode_pairs_text (l : list byte) :
  decode_pairs (String.concat "" (map pair_text l)) = Some l.
Proof.
  induction l as [|b l IH]; [reflexivity | ].
  rewrite map_cons, concat_cons.
  destruct (decode_pair_text b) as (hi & lo & -> & Hd).
  cbn [String.append decode_pairs]. now rewrite Hd, IH.
Qed.

Lemma chomp_line (s : string) : chomp (s ++ LF) = s.
Proof.
  induction s as [|c s IH]; [reflexivity | ].
  cbn [String.append chomp]. rewrite IH.
  now destruct s.
Qed.

Lemma nonzero_prefix_zeros (l : list byte) (k : nat) :
  nonzero_prefix (l ++ repeat x00 k) = nonzero_prefix l.
Proof.
  induction k as [|k IH]; [now rewrite app_nil_r | ].
  replace (S k) with (k + 1)%nat by lia.
  rewrite repeat_app, app_assoc. cbn [repeat].
  now rewrite nonzero_prefix_snoc.
Qed.

Lemma nonzero_prefix_length (l : list byte) :
  (List.length (nonzero_prefix l) <= List.length l)%nat.
Proof.
  destruct (nonzero_prefix_split l) as [k Hk].
  apply (f_equal (@List.length byte)) in Hk. rewrite length_app in Hk. lia.
Qed.

(** What a reader gets back from a row line of the program: the columns
    before maxCol, and zeros from maxCol on. *)
Lemma decode_row_text (bm : FT_Bitmap) (p : Z) :
  0 <= width bm <= CInt.INT_MAX -> 0 <= p ->
  p + width bm <= Z.of_nat (List.length (buffer bm)) ->
  decode_row (Z.to_nat (width bm)) (row_text bm p)
  = Some (firstn (Z.to_nat (maxCol (row_bytes bm p))) (row_bytes bm p)
            ++ repeat x00 (Z.to_nat (width bm)
                           - Z.to_nat (maxCol (row_bytes bm p))))%list.
Proof.
  intros Hw Hp Hin.
  rewrite (row_text_encoded bm p Hw Hp Hin). unfold encoded_row.
  pose proof (maxCol_bounds (row_bytes bm p)) as Hb.
  pose proof (row_bytes_length bm p ltac:(lia) Hp Hin) as Hlen.
  cbn [String.append decode_row].
  rewrite chomp_line, decode_pairs_text, length_firstn.
  do 3 f_equal. lia.
Qed.

(** Whenever a row holds a non-zero pixel, its last non-zero pixel is
    missing from what the reader gets back. *)
Lemma roundtrip_drops_maxCol (bm : FT_Bitmap) (p : Z) (decoded : list byte) :
  0 <= width bm <= CInt.INT_MAX -> 0 <= p ->
  p + width bm <= Z.of_nat (List.length (buffer bm)) ->
  0 <= maxCol (row_bytes bm p) ->
  decode_row (Z.to_nat (width bm)) (row_text bm p) = Some decoded ->
  nonzero_prefix decoded <> nonzero_prefix (row_bytes bm p)
  /\ nth (Z.to_nat (maxCol (row_bytes bm p))) decoded x00 = x00
  /\ nth (Z.to_nat (maxCol (row_bytes bm p))) (row_bytes bm p) x00 <> x00.
Proof.
  intros Hw Hp Hin Hm Hd.
  rewrite (decode_row_text bm p Hw Hp Hin) in Hd. injection Hd as <-.
  pose proof (maxCol_bounds (row_bytes bm p)) as Hb.
  set (row := row_bytes bm p) in *. set (m := maxCol row) in *.
  assert (Hl : List.length (firstn (Z.to_nat m) row) = Z.to_nat m)
    by (rewrite length_firstn; lia).
  split; [ | split].
  - rewrite nonzero_prefix_zeros. intros E.
    pose proof (nonzero_prefix_length (firstn (Z.to_nat m) row)) as Hle.
    rewrite E in Hle. unfold m, maxCol in *. lia.
  - rewrite app_nth2 by lia. apply nth_repeat.
  - now apply maxCol_nonzero.
Qed.

(** C2, at the row [00 80 ff 40 00] of a glyph five columns wide: the
    last non-zero column is column 3, the program writes the pairs of the
    columns 0 to 2 only, the reader decodes the row [00 80 ff 00 00], and
    the non-zero prefix [00 80 ff 40] of the row is not what the reader
    gets ([00 80 ff]): the pixel 40 is lost. *)
Theorem row_roundtrip_fails :
  let bm := mkBitmap 1 5 5 [x00; x80; xff; x40; x00] in
  row_bytes bm 0 = [x00; x80; xff; x40; x00]
  /\ maxCol (row_bytes bm 0) = 3
  /\ row_text bm 0 = ":  80ff" ++ LF
  /\ decode_row 5 (row_text bm 0) = Some [x00; x80; xff; x00; x00]
  /\ nonzero_prefix [x00; x80; xff; x00; x00] = [x00; x80; xff]
  /\ nonzero_prefix (row_bytes bm 0) = [x00; x80; xff; x40]
  /\ ~ (exists decoded : list byte,
          decode_row 5 (row_text bm 0) = Some decoded
          /\ nonzero_prefix decoded = nonzero_prefix (row_bytes bm 0)).
Proof.
  intros bm.
  repeat (split; [reflexivity | ]).
  intros (decoded & Hd & Hp).
  change (decode_row 5 (row_text bm 0))
    with (Some [x00; x80; xff; x00; x00]) in Hd.
  injection Hd as <-. discriminate Hp.
Qed.

(** ** The characters of the printed numbers *)

Create HintDb hashfree.

Lemma free_app_intro (a b : string) :
  free_of is_hash a = true -> free_of is_hash b = true ->
  free_of is_hash (a ++ b) = true.
Proof. intros Ha Hb. now rewrite free_of_app, Ha, Hb. Qed.

Lemma free_dec_uint (d : Decimal.uint) :
  free_of is_hash (DecimalString.NilEmpty.string_of_uint d) = true.
Proof. induction d; simpl; auto. Qed.

Lemma free_fmt_d (z : Z) : free_of is_hash (fmt_d z) = true.
Proof.
  unfold fmt_d, DecimalString.NilZero.string_of_int,
    DecimalString.NilZero.string_of_uint.
  destruct (Z.to_int z) as [d|d]; destruct d eqn:E; try reflexivity;
    rewrite <- E; try apply free_dec_uint;
    change (free_of is_hash (DecimalString.NilEmpty.string_of_uint d) = true);
    apply free_dec_uint.
Qed.

Lemma free_hex_uint (d : Hexadecimal.uint) :
  free_of is_hash (HexadecimalString.NilEmpty.string_of_uint d) = true.
Proof. induction d; simpl; auto. Qed.

Lemma free_fmt_x (v : Z) : free_of is_hash (fmt_x v) = true.
Proof.
  unfold fmt_x, HexadecimalString.NilZero.string_of_uint.
  destruct (N.to_hex_uint (Z.to_N (CInt.to_uint v))) eqn:E; try reflexivity;
    rewrite <- E; apply free_hex_uint.
Qed.

Lemma free_fmt_02x (v : Z) : free_of is_hash (fmt_02x v) = true.
Proof.
  unfold fmt_02x. pose proof (free_fmt_x v) as H.
  destruct (fmt_x v) as [|c [|c' s]]; auto.
Qed.

#[local] Hint Resolve free_app_intro free_fmt_d free_fmt_02x : hashfree.

Lemma free_advance_text (adv : Z) : free_of is_hash (advance_text adv) = true.
Proof.
  unfold advance_text.
  destruct (negb (CInt.rem adv 63 =? 0)); auto 6 with hashfree.
Qed.

Lemma free_emit_cols (buf : list byte) (p : Z) (fuel : nat) (cc max_cc : Z) :
  free_of is_hash (emit_cols buf p fuel cc max_cc) = true.
Proof.
  revert cc. induction fuel as [|fuel IH]; intros cc; [reflexivity | ].
  cbn [emit_cols]. destruct (cc <? max_cc); [ | reflexivity].
  apply free_app_intro; [ | apply IH].
  destruct (negb (deref buf (p + cc) =? 0)); auto with hashfree.
Qed.

Lemma free_row_text (bm : FT_Bitmap) (p : Z) :
  free_of is_hash (row_text bm p) = true.
Proof.
  unfold row_text. apply free_app_intro; [reflexivity | ].
  apply free_app_intro; [apply free_emit_cols | reflexivity].
Qed.

Lemma free_rows_text (bm : FT_Bitmap) (fuel : nat) (rc p : Z) :
  free_of is_hash (rows_text bm fuel rc p) = true.
Proof.
  revert rc p. induction fuel as [|fuel IH]; intros rc p; [reflexivity | ].
  cbn [rows_text]. destruct (rc <? rows bm); [ | reflexivity].
  apply free_app_intro; [apply free_row_text | apply IH].
Qed.

#[local] Hint Resolve free_advance_text free_rows_text : hashfree.

Lemma free_glyph_line (g : Z) (slot : FT_GlyphSlot) :
  free_of is_hash (glyph_line g slot) = true.
Proof.
  unfold glyph_line.
  repeat (apply free_app_intro; [first [reflexivity | auto with hashfree] | ]).
  reflexivity.
Qed.

Lemma free_glyph_text (w : Env) (g : Z) :
  free_of is_hash (glyph_text w g) = true.
Proof.
  unfold glyph_text, bitmap_text.
  apply free_app_intro; [apply free_glyph_line | apply free_rows_text].
Qed.

Lemma free_records_text (w : Env) (n : nat) (g : Z) :
  free_of is_hash (records_text w n g) = true.
Proof.
  revert g. induction n as [|n IH]; intros g; [reflexivity | ].
  cbn [records_text]. destruct (glyph_error w g =? 0); [ | reflexivity].
  apply free_app_intro; [apply free_glyph_text | apply IH].
Qed.

Lemma free_count_line (count : Z) : free_of is_hash (count_line count) = true.
Proof.
  unfold count_line.
  apply free_app_intro; [reflexivity | ].
  apply free_app_intro; [apply free_fmt_d | reflexivity].
Qed.

Lemma count_line_length (count : Z) : (6 <= String.length (count_line count))%nat.
Proof. unfold count_line. rewrite slength_app. simpl String.length. lia. Qed.

(** ** Runs of [render] *)

Lemma dump_glyph_run (w : Env) (g : Z) (o : Out) :
  fst (dump_glyph w g o)
  = (if glyph_error w g =? 0 then Next tt else Return (glyph_error w g))
  /\ stdout (snd (dump_glyph w g o))
     = stdout o ++ (if glyph_error w g =? 0 then glyph_text w g else "").
Proof.
  unfold dump_glyph, glyph_error, glyph_text, bind, ft_call, fail_if,
    printf, fprintf_stderr, return_, ret.
  destruct (FT_Load_Glyph w g =? 0) eqn:E1; cbn [negb fst snd stdout stderr calls].
  - destruct (FT_Render_Glyph w g =? 0) eqn:E2;
      cbn [negb fst snd stdout stderr calls].
    + split; [reflexivity | now rewrite sapp_assoc].
    + split; [reflexivity | now rewrite sapp_nil_r].
  - rewrite E1. split; [reflexivity | cbn; now rewrite sapp_nil_r].
Qed.

Lemma for_glyphs_run (w : Env) (fuel : nat) (g l : Z) (o : Out) :
  fuel = Z.to_nat (l - g + 1) ->
  fst (for_glyphs w fuel g l o)
  = (if first_error w fuel g =? 0 then Next tt else Return (first_error w fuel g))
  /\ stdout (snd (for_glyphs w fuel g l o)) = stdout o ++ records_text w fuel g.
Proof.
  revert g o. induction fuel as [|fuel IH]; intros g o Hf.
  - cbn. now rewrite sapp_nil_r.
  - cbn [for_glyphs first_error records_text].
    replace (g <=? l) with true by (symmetry; apply Z.leb_le; lia).
    unfold bind.
    destruct (dump_glyph_run w g o) as [Hfl Hout].
    destruct (dump_glyph w g o) as [fl o']. cbn [fst snd] in Hfl, Hout.
    destruct (glyph_error w g =? 0) eqn:E; subst fl.
    + destruct (IH (g + 1) o' ltac:(lia)) as [IHf IHo].
      split; [exact IHf | ].
      rewrite IHo, Hout. apply sapp_assoc.
    + cbn [fst snd]. rewrite E. split; [reflexivity | exact Hout].
Qed.

(** The loop ends by its own test: more fuel changes nothing. *)
Lemma for_glyphs_fuel (w : Env) (fuel : nat) (g l : Z) (o : Out) :
  (Z.to_nat (l - g + 1) <= fuel)%nat ->
  for_glyphs w fuel g l o = for_glyphs w (Z.to_nat (l - g + 1)) g l o.
Proof.
  revert g o. induction fuel as [|fuel IH]; intros g o Hf.
  - now replace (Z.to_nat (l - g + 1)) with 0%nat by lia.
  - cbn [for_glyphs]. destruct (g <=? l) eqn:E.
    + apply Z.leb_le in E.
      replace (Z.to_nat (l - g + 1)) with (S (Z.to_nat (l - (g + 1) + 1))) by lia.
      cbn [for_glyphs].
      replace (g <=? l) with true by (symmetry; apply Z.leb_le; lia).
      unfold bind. destruct (dump_glyph w g o) as [[[]|rc] o']; [ | reflexivity].
      apply IH. lia.
    + apply Z.leb_gt in E.
      now replace (Z.to_nat (l - g + 1)) with 0%nat by lia.
Qed.

Lemma exec_bind {A : Type} (m : Proc A) (k : A -> Proc Z) (o : Out) :
  exec (bind m k) o
  = match m o with
    | (Next a, o') => exec (k a) o'
    | (Return rc, o') => (rc, o')
    end.
Proof. unfold exec, bind. now destruct (m o) as [[a|rc] o']. Qed.

Lemma print_header_run (w : Env) (face_name : string) (face : FT_Face)
    (size f l : Z) (o : Out) :
  print_header w face_name face size f l o
  = (Next tt, mkOut (stdout o ++ header_text w face_name face size f l)
                    (stderr o) (calls o)).
Proof.
  unfold print_header, bind, printf, header_text, font_lines, range_lines,
    count_line.
  cbn [stdout stderr calls]. f_equal. f_equal.
  repeat rewrite sapp_assoc. reflexivity.
Qed.

(** From the header on: the header, the records up to the first glyph
    that fails, and the marker when none fails. *)
Lemma render_tail_run (w : Env) (face_name : string) (face : FT_Face)
    (size f l : Z) (o : Out) :
  let n := Z.to_nat (l - f + 1) in
  let run :=
    exec (print_header w face_name face size f l ;;
          for_glyphs w n f l ;;
          printf ("# EOF" ++ LF) ;;
          ret 0) o in
  fst run = first_error w n f
  /\ stdout (snd run)
     = stdout o ++ header_text w face_name face size f l
         ++ records_text w n f
         ++ (if first_error w n f =? 0 then "# EOF" ++ LF else "").
Proof.
  intros n run. subst run.
  rewrite exec_bind, print_header_run.
  set (o1 := mkOut _ _ _).
  rewrite exec_bind.
  destruct (for_glyphs_run w n f l o1 eq_refl) as [Hfl Hout].
  destruct (for_glyphs w n f l o1) as [fl o2]. cbn [fst snd] in Hfl, Hout.
  destruct (first_error w n f =? 0) eqn:E; subst fl.
  - unfold exec, bind, printf, ret. cbn [fst snd stdout].
    apply Z.eqb_eq in E. split; [now rewrite E | ].
    rewrite Hout. unfold o1. cbn [stdout].
    now rewrite !sapp_assoc.
  - cbn [fst snd]. split; [reflexivity | ].
    rewrite Hout. unfold o1. cbn [stdout].
    now rewrite !sapp_assoc, sapp_nil_r.
Qed.

Ltac run_call :=
  rewrite exec_bind; unfold ft_call at 1; cbv beta iota;
  cbn [stdout stderr calls app].

Ltac run_pass E :=
  rewrite exec_bind; unfold fail_if at 1; rewrite E;
  unfold ret at 1; cbv beta iota.

Ltac run_fail E :=
  rewrite exec_bind; unfold fail_if at 1; rewrite E;
  unfold bind, fprintf_stderr, return_;
  cbn [stdout stderr calls app]; reflexivity.

(** Every path of [render]: what it returns and what it leaves. *)
Lemma render_run (w : Env) (face_name : string) (size f l : Z) :
  let face := snd (FT_New_Face w face_name) in
  let r := resolve f l (num_glyphs face) in
  let n := Z.to_nat (last r - first r + 1) in
  let run := exec (render w face_name size f l) start in
  if negb (FT_Init_FreeType w =? 0) then
    run = (FT_Init_FreeType w,
           mkOut "" ("failed to init freetype" ++ LF) [CallInit])
  else if negb (fst (FT_New_Face w face_name) =? 0) then
    run = (fst (FT_New_Face w face_name),
           mkOut "" ("failed to create face for '" ++ face_name ++ "'" ++ LF)
                 [CallInit; CallNewFace face_name])
  else if size <? 4 then
    run = (100,
           mkOut "" ("size " ++ fmt_d size ++ " too small")
                 [CallInit; CallNewFace face_name])
  else if negb (FT_Set_Pixel_Sizes w size =? 0) then
    run = (FT_Set_Pixel_Sizes w size,
           mkOut "" ("failed to set size " ++ fmt_d size ++ LF)
                 [CallInit; CallNewFace face_name; CallSetPixelSizes size])
  else
    fst run = first_error w n (first r)
    /\ stdout (snd run)
       = header_text w face_name face size (first r) (last r)
           ++ records_text w n (first r)
           ++ (if first_error w n (first r) =? 0 then "# EOF" ++ LF else "").
Proof.
  intros face r n run. subst run.
  destruct (negb (FT_Init_FreeType w =? 0)) eqn:E1.
  { unfold render, start. run_call. run_fail E1. }
  destruct (negb (fst (FT_New_Face w face_name) =? 0)) eqn:E2.
  { unfold render, start. run_call. run_pass E1. run_call. run_fail E2. }
  destruct (size <? 4) eqn:E3.
  { unfold render, start. run_call. run_pass E1. run_call. run_pass E2.
    rewrite exec_bind, E3.
    unfold bind, fprintf_stderr, return_.
    cbn [stdout stderr calls app]. reflexivity. }
  destruct (negb (FT_Set_Pixel_Sizes w size =? 0)) eqn:E4.
  { unfold render, start. run_call. run_pass E1. run_call. run_pass E2.
    rewrite exec_bind, E3. unfold ret at 1. cbv beta iota.
    run_call. run_fail E4. }
  assert (Hrun :
    exec (render w face_name size f l) start
    = exec (print_header w face_name face size (first r) (last r) ;;
            for_glyphs w n (first r) (last r) ;;
            printf ("# EOF" ++ LF) ;;
            ret 0)
           (mkOut "" "" [CallInit; CallNewFace face_name; CallSetPixelSizes size])).
  { unfold render, start. run_call. run_pass E1. run_call. run_pass E2.
    rewrite exec_bind, E3. unfold ret at 1. cbv beta iota.
    run_call. run_pass E4. reflexivity. }
  rewrite Hrun.
  apply (render_tail_run w face_name face size (first r) (last r)).
Qed.

(** ** The glyph loop, glyph by glyph *)

Lemma glyph_error_iff (w : Env) (g : Z) :
  glyph_error w g <> 0 <-> FT_Load_Glyph w g <> 0 \/ FT_Render_Glyph w g <> 0.
Proof.
  unfold glyph_error. destruct (FT_Load_Glyph w g =? 0) eqn:E; cbn [negb].
  - apply Z.eqb_eq in E. rewrite E. intuition congruence.
  - apply Z.eqb_neq in E. intuition.
Qed.

Lemma glyph_error_code (w : Env) (g : Z) :
  glyph_error w g = FT_Load_Glyph w g \/ glyph_error w g = FT_Render_Glyph w g.
Proof. unfold glyph_error. destruct (negb (FT_Load_Glyph w g =? 0)); auto. Qed.

(** The loop fails exactly when one of its glyphs does, and then with the
    code of such a glyph. *)
Lemma first_error_iff (w : Env) (n : nat) (g : Z) :
  first_error w n g <> 0
  <-> exists i : Z, g <= i < g + Z.of_nat n /\ glyph_error w i <> 0.
Proof.
  revert g. induction n as [|n IH]; intros g.
  - cbn. split; [congruence | intros (i & Hi & _); lia].
  - cbn [first_error]. destruct (glyph_error w g =? 0) eqn:E.
    + apply Z.eqb_eq in E. rewrite IH. split; intros (i & Hi & He).
      * exists i. split; [lia | exact He].
      * exists i. split; [ | exact He].
        destruct (Z.eq_dec i g) as [->|Hne]; [congruence | lia].
    + apply Z.eqb_neq in E. split; [ | intros _; exact E].
      intros _. exists g. split; [lia | exact E].
Qed.

Lemma first_error_code (w : Env) (n : nat) (g : Z) :
  first_error w n g <> 0 ->
  exists i : Z, g <= i < g + Z.of_nat n /\ first_error w n g = glyph_error w i.
Proof.
  revert g. induction n as [|n IH]; intros g; cbn [first_error]; [congruence | ].
  destruct (glyph_error w g =? 0) eqn:E.
  - intros H. destruct (IH (g + 1) H) as (i & Hi & He).
    exists i. split; [lia | exact He].
  - intros _. exists g. split; [lia | reflexivity].
Qed.

Lemma first_error_no_errors (w : Env) (n : nat) (g : Z) :
  first_error (no_errors w) n g = 0.
Proof. revert g. induction n as [|n IH]; intros g; [reflexivity | apply IH]. Qed.

Lemma records_prefix (w : Env) (n : nat) (g : Z) :
  starts (records_text w n g) (records_text (no_errors w) n g).
Proof.
  revert g. induction n as [|n IH]; intros g; [apply starts_refl | ].
  cbn [records_text].
  change (glyph_error (no_errors w) g =? 0) with true. cbv iota.
  change (glyph_text (no_errors w) g) with (glyph_text w g).
  destruct (glyph_error w g =? 0); [ | apply starts_nil].
  apply starts_app_l, IH.
Qed.

Lemma records_complete (w : Env) (n : nat) (g : Z) :
  first_error w n g = 0 ->
  records_text w n g = records_text (no_errors w) n g.
Proof.
  revert g. induction n as [|n IH]; intros g; [reflexivity | ].
  cbn [records_text first_error].
  change (glyph_error (no_errors w) g =? 0) with true. cbv iota.
  change (glyph_text (no_errors w) g) with (glyph_text w g).
  destruct (glyph_error w g =? 0) eqn:E.
  - intros H. now rewrite (IH _ H).
  - intros H. rewrite H in E. discriminate E.
Qed.

(** ** Whole lines *)

Lemma lines_app (a b : string) :
  ends LF a -> b = "" \/ ends LF b -> ends LF (a ++ b).
Proof.
  intros [r ->] [-> | [r' ->]].
  - rewrite sapp_nil_r. now exists r.
  - exists ((r ++ LF) ++ r'). now rewrite !sapp_assoc.
Qed.

Lemma lines_app' (a b : string) :
  a = "" \/ ends LF a -> b = "" \/ ends LF b -> a ++ b = "" \/ ends LF (a ++ b).
Proof.
  intros [-> | Ha] Hb; [exact Hb | right; now apply lines_app].
Qed.

Lemma ends_refl (s : string) : ends s s.
Proof. now exists "". Qed.

Lemma ends_app (s a b : string) : ends s b -> ends s (a ++ b).
Proof. intros [r ->]. exists (a ++ r). now rewrite sapp_assoc. Qed.

Lemma row_text_line (bm : FT_Bitmap) (p : Z) : ends LF (row_text bm p).
Proof.
  unfold row_text. do 2 apply ends_app. apply ends_refl.
Qed.

Lemma rows_text_lines (bm : FT_Bitmap) (fuel : nat) (rc p : Z) :
  rows_text bm fuel rc p = "" \/ ends LF (rows_text bm fuel rc p).
Proof.
  revert rc p. induction fuel as [|fuel IH]; intros rc p; [now left | ].
  cbn [rows_text]. destruct (rc <? rows bm); [ | now left].
  right. apply lines_app; [apply row_text_line | apply IH].
Qed.

Lemma glyph_line_line (g : Z) (slot : FT_GlyphSlot) : ends LF (glyph_line g slot).
Proof.
  unfold glyph_line. repeat first [apply ends_refl | apply ends_app].
Qed.

Lemma records_text_lines (w : Env) (n : nat) (g : Z) :
  records_text w n g = "" \/ ends LF (records_text w n g).
Proof.
  revert g. induction n as [|n IH]; intros g; [now left | ].
  cbn [records_text]. destruct (glyph_error w g =? 0); [ | now left].
  right. apply lines_app; [ | apply IH].
  unfold glyph_text, bitmap_text.
  apply lines_app; [apply glyph_line_line | apply rows_text_lines].
Qed.

Lemma header_text_line (w : Env) (face_name : string) (face : FT_Face)
    (size f l : Z) :
  ends LF (header_text w face_name face size f l).
Proof.
  unfold header_text, count_line. repeat first [apply ends_refl | apply ends_app].
Qed.

Lemma not_ends_nil (s : string) : s <> "" -> ~ ends s "".
Proof.
  intros Hs [r Hr]. destruct r; simpl in Hr; [now subst s | discriminate Hr].
Qed.

Lemma negb_eqb_true (z : Z) : negb (z =? 0) = true -> z <> 0.
Proof. intros H. apply negb_true_iff, Z.eqb_neq in H. exact H. Qed.

Lemma negb_eqb_false (z : Z) : negb (z =? 0) = false -> z = 0.
Proof. intros H. apply negb_false_iff, Z.eqb_eq in H. exact H. Qed.

(** What a run leaves on the standard output, by the way it ends. *)
Lemma render_outcome (w : Env) (face_name : string) (size f l : Z) :
  let face := snd (FT_New_Face w face_name) in
  let r := resolve f l (num_glyphs face) in
  let n := Z.to_nat (last r - first r + 1) in
  let run := exec (render w face_name size f l) start in
  (fst run <> 0 /\ stdout (snd run) = ""
   /\ (FT_Init_FreeType w <> 0 \/ fst (FT_New_Face w face_name) <> 0
       \/ size < 4 \/ FT_Set_Pixel_Sizes w size <> 0))
  \/ (FT_Init_FreeType w = 0 /\ fst (FT_New_Face w face_name) = 0
      /\ 4 <= size /\ FT_Set_Pixel_Sizes w size = 0
      /\ fst run = first_error w n (first r)
      /\ stdout (snd run)
         = header_text w face_name face size (first r) (last r)
             ++ records_text w n (first r)
             ++ (if first_error w n (first r) =? 0 then "# EOF" ++ LF else "")).
Proof.
  intros face r n run.
  pose proof (render_run w face_name size f l) as H. cbv zeta in H.
  fold face r n run in H.
  destruct (negb (FT_Init_FreeType w =? 0)) eqn:E1.
  { left. rewrite H. cbn [fst snd stdout]. apply negb_eqb_true in E1. auto. }
  destruct (negb (fst (FT_New_Face w face_name) =? 0)) eqn:E2.
  { left. rewrite H. cbn [fst snd stdout]. apply negb_eqb_true in E2. auto. }
  destruct (size <? 4) eqn:E3.
  { left. rewrite H. cbn [fst snd stdout]. apply Z.ltb_lt in E3.
    repeat split; auto. lia. }
  destruct (negb (FT_Set_Pixel_Sizes w size =? 0)) eqn:E4.
  { left. rewrite H. cbn [fst snd stdout]. apply negb_eqb_true in E4. auto 6. }
  right. apply negb_eqb_false in E1, E2, E4. apply Z.ltb_ge in E3.
  destruct H as [Hrc Hout]. auto 8.
Qed.

(** C6: the dump ends with the line "# EOF" if and only if the run
    returns 0.  A run that returns 0 wrote the whole intended dump, whose
    last line is "# EOF"; a run that fails (at the initialization, the
    face, the pixel size, the size setting or the load or render of a
    glyph of the range, and in no other way) wrote a beginning of the
    intended dump that does not end with the marker. *)
Theorem eof_marker_iff_success (w : Env) (face_name : string) (size f l : Z) :
  let r := resolve f l (num_glyphs (snd (FT_New_Face w face_name))) in
  let run := exec (render w face_name size f l) start in
  let intended := exec (render (no_errors w) face_name size f l) start in
  (fst run = 0 <-> ends ("# EOF" ++ LF) (stdout (snd run)))
  /\ (fst run = 0 ->
      ends (LF ++ "# EOF" ++ LF) (stdout (snd run))
      /\ stdout (snd run) = stdout (snd intended))
  /\ (fst run <> 0 ->
      starts (stdout (snd run)) (stdout (snd intended))
      /\ ~ ends ("# EOF" ++ LF) (stdout (snd run)))
  /\ (fst run <> 0 <->
      FT_Init_FreeType w <> 0 \/ fst (FT_New_Face w face_name) <> 0
      \/ size < 4 \/ FT_Set_Pixel_Sizes w size <> 0
      \/ exists g : Z, first r <= g <= last r
                       /\ (FT_Load_Glyph w g <> 0 \/ FT_Render_Glyph w g <> 0))
  /\ (4 <= size -> fst intended = 0).
Proof.
  intros r run intended.
  pose proof (render_outcome w face_name size f l) as Hrun.
  pose proof (render_outcome (no_errors w) face_name size f l) as Hint.
  cbv zeta in Hrun, Hint.
  change (snd (FT_New_Face (no_errors w) face_name))
    with (snd (FT_New_Face w face_name)) in Hint.
  fold r run in Hrun. fold r intended in Hint.
  set (face := snd (FT_New_Face w face_name)) in *.
  set (n := Z.to_nat (last r - first r + 1)) in *.
  rewrite first_error_no_errors in Hint.
  change (header_text (no_errors w)) with (header_text w) in Hint.
  assert (Hmark : forall s : string, ends ("# EOF" ++ LF) (s ++ "# EOF" ++ LF))
    by (intros s; now exists s).
  destruct Hrun as [(Hrc & Hout & Hwhy) | (E1 & E2 & E3 & E4 & Hrc & Hout)].
  - (* a failure before the header *)
    rewrite Hout.
    assert (Hno : ~ ends ("# EOF" ++ LF) "") by (apply not_ends_nil; discriminate).
    repeat split; try tauto; try (intros; apply starts_nil).
    destruct Hint as [(Hrc' & _ & Hwhy') | (_ & _ & _ & _ & Hrc' & _)];
      [ | intros _; exact Hrc'].
    cbn in Hwhy'. lia.
  - (* the header was written *)
    assert (Hint' : fst intended = 0
                    /\ stdout (snd intended)
                       = header_text w face_name face size (first r) (last r)
                           ++ records_text (no_errors w) n (first r)
                           ++ "# EOF" ++ LF).
    { destruct Hint as [(_ & _ & Hwhy') | (_ & _ & _ & _ & Hrc' & Hout')];
        [cbn in Hwhy'; lia | auto]. }
    destruct Hint' as [Hrc' Hout'].
    assert (Hglyph : first_error w n (first r) <> 0
                     <-> exists g : Z, first r <= g <= last r
                           /\ (FT_Load_Glyph w g <> 0 \/ FT_Render_Glyph w g <> 0)).
    { rewrite first_error_iff. split; intros (g & Hg & He); exists g.
      - split; [unfold n in Hg; lia | now apply glyph_error_iff].
      - split; [unfold n; lia | now apply glyph_error_iff]. }
    rewrite Hrc, Hout, Hout'.
    destruct (first_error w n (first r) =? 0) eqn:E.
    + (* every glyph went through *)
      apply Z.eqb_eq in E.
      rewrite (records_complete w n (first r) E).
      assert (Hlast : ends (LF ++ "# EOF" ++ LF)
                (header_text w face_name face size (first r) (last r)
                   ++ records_text (no_errors w) n (first r) ++ "# EOF" ++ LF)).
      { destruct (lines_app _ _
                    (header_text_line w face_name face size (first r) (last r))
                    (records_text_lines (no_errors w) n (first r))) as [q Hq].
        exists q. rewrite <- sapp_assoc, Hq. now rewrite !sapp_assoc. }
      repeat split; try tauto; try congruence; auto.
      * intros _. rewrite <- sapp_assoc. apply Hmark.
      * intros [H | [H | [H | [H | H]]]]; try lia. now apply Hglyph in H.
    + (* a glyph failed *)
      apply Z.eqb_neq in E. rewrite sapp_nil_r.
      assert (Hno : ~ ends ("# EOF" ++ LF)
                (header_text w face_name face size (first r) (last r)
                   ++ records_text w n (first r))).
      { unfold header_text. rewrite !sapp_assoc, <- sapp_assoc.
        apply no_marker_at_end.
        - apply free_app_intro; [apply free_count_line | apply free_records_text].
        - rewrite slength_app.
          pose proof (count_line_length
                        (CInt.to_int (last r - first r + 1))). lia. }
      repeat split; try tauto; try congruence; auto.
      apply starts_app_l.
      apply (starts_trans _ (records_text (no_errors w) n (first r)));
        [apply records_prefix | apply starts_app].
Qed.

(** ** The header and the range *)

Lemma resolve_count_in_int (f l glyphCount : Z) :
  CInt.INT_MIN < glyphCount <= CInt.INT_MAX ->
  CInt.in_int (last (resolve f l glyphCount) - first (resolve f l glyphCount) + 1).
Proof.
  intros Hn.
  assert (Hid : CInt.to_int (glyphCount - 1) = glyphCount - 1)
    by (apply to_int_id; unfold CInt.in_int, CInt.INT_MIN, CInt.INT_MAX in *; lia).
  unfold CInt.in_int, CInt.INT_MIN, CInt.INT_MAX in *.
  range_cases; rewrite ?Hid; lia.
Qed.

Lemma resolve_count_positive (f l glyphCount : Z) :
  0 < glyphCount <= CInt.INT_MAX ->
  1 <= last (resolve f l glyphCount) - first (resolve f l glyphCount) + 1
    <= glyphCount.
Proof. intros Hn. pose proof (resolve_bounds f l glyphCount Hn). lia. Qed.

(** C8: whenever the header is written, for a font whose glyph count is
    an [int], its "num_glyphs" line holds last - first + 1 for the
    resolved range, computed without overflow; for a glyph count > 0 this
    is between 1 and the glyph count. *)
Theorem header_num_glyphs (w : Env) (face_name : string) (size f l : Z) :
  FT_Init_FreeType w = 0 ->
  fst (FT_New_Face w face_name) = 0 ->
  4 <= size ->
  FT_Set_Pixel_Sizes w size = 0 ->
  CInt.INT_MIN < num_glyphs (snd (FT_New_Face w face_name)) <= CInt.INT_MAX ->
  let face := snd (FT_New_Face w face_name) in
  let r := resolve f l (num_glyphs face) in
  let run := exec (render w face_name size f l) start in
  starts (font_lines w face_name face size
            ++ range_lines (first r) (last r)
            ++ "> num_glyphs: " ++ fmt_d (last r - first r + 1) ++ LF)
         (stdout (snd run))
  /\ CInt.in_int (last r - first r + 1)
  /\ (0 < num_glyphs face -> 1 <= last r - first r + 1 <= num_glyphs face).
Proof.
  intros E1 E2 E3 E4 Hn face r run.
  pose proof (resolve_count_in_int f l (num_glyphs face) Hn) as Hc. fold r in Hc.
  split; [ | split; [exact Hc | ]].
  - destruct (render_outcome w face_name size f l)
      as [(_ & _ & Hwhy) | (_ & _ & _ & _ & _ & Hout)];
      [exfalso; lia | ].
    fold face r run in Hout. rewrite Hout.
    unfold header_text, count_line. rewrite (to_int_id _ Hc).
    eexists. rewrite !sapp_assoc. reflexivity.
  - intros Hpos. apply resolve_count_positive.
    split; [exact Hpos | apply Hn].
Qed.

Lemma header_num_glyphs_witness :
  let w := mkEnv 0 (fun _ => (0, mkFace "Noto" "Sans" 1000 800 (-200) 5))
                 (fun _ => 0) (fun _ => 0) (fun _ => 0)
                 (fun _ => mkSlot 640 0 0 (mkBitmap 0 0 0 []))
                 "2020-01-01 00:00:00" in
  let r := resolve (-3) 100 5 in
  starts (font_lines w "f.ttf" (mkFace "Noto" "Sans" 1000 800 (-200) 5) 48
            ++ range_lines (first r) (last r)
            ++ "> num_glyphs: " ++ fmt_d 5 ++ LF)
         (stdout (snd (exec (render w "f.ttf" 48 (-3) 100) start))).
Proof.
  intros w r.
  refine (proj1 (header_num_glyphs w "f.ttf" 48 (-3) 100
                   eq_refl eq_refl _ eq_refl _)).
  - lia.
  - unfold CInt.INT_MIN, CInt.INT_MAX. simpl. lia.
Defined.

(** ** No check of the glyph count *)

(** C5, at a font without glyphs: the range is resolved to {0, -1}, the
    header says "num_glyphs: 0" and the run returns 0 with the marker,
    even where FreeType would refuse to load any glyph. *)
Lemma resolver_accepts_empty_font :
  let w := mkEnv 0 (fun _ => (0, mkFace "Empty" "Regular" 1000 800 (-200) 0))
                 (fun _ => 0) (fun _ => 6) (fun _ => 6)
                 (fun _ => mkSlot 0 0 0 (mkBitmap 0 0 0 []))
                 "2020-01-01 00:00:00" in
  let run := exec (render w "empty.ttf" 48 (-3) (-1)) start in
  num_glyphs (snd (FT_New_Face w "empty.ttf")) <= 0
  /\ resolve (-3) (-1) 0 = mkRange 0 (-1)
  /\ fst run = 0
  /\ stderr (snd run) = ""
  /\ stdout (snd run)
     = "# generated on 2020-01-01 00:00:00" ++ LF
         ++ "> file: empty.ttf" ++ LF
         ++ "> name: Empty-Regular" ++ LF
         ++ "> upem: 1000" ++ LF
         ++ "> ascent: 800" ++ LF
         ++ "> descent: 200" ++ LF
         ++ "> size: 48" ++ LF
         ++ "> font_glyphs: 0" ++ LF
         ++ "# first: 0" ++ LF
         ++ "# last: -1" ++ LF
         ++ "> num_glyphs: 0" ++ LF
         ++ "# EOF" ++ LF.
Proof.
  intros w run.
  split; [simpl; lia | ].
  split; [reflexivity | ].
  split; [reflexivity | ].
  split; reflexivity.
Qed.

Lemma resolve_nonpositive_count (f l glyphCount : Z) :
  CInt.INT_MIN < glyphCount <= 0 ->
  (0 <= f /\ resolve f l glyphCount = mkRange (glyphCount - 1) (glyphCount - 1))
  \/ (f < 0 /\ (l = -1 \/ glyphCount <= l)
      /\ resolve f l glyphCount = mkRange 0 (glyphCount - 1))
  \/ (f < 0 /\ l <> -1 /\ l < glyphCount
      /\ resolve f l glyphCount = mkRange 0 0).
Proof.
  intros Hn.
  assert (Hid : CInt.to_int (glyphCount - 1) = glyphCount - 1)
    by (apply to_int_id; unfold CInt.in_int, CInt.INT_MIN, CInt.INT_MAX in *; lia).
  unfold CInt.INT_MIN in Hn.
  range_cases; rewrite ?Hid;
    first [ left; split; [lia | f_equal; lia]
          | right; left; split; [lia | split; [lia | f_equal; lia]]
          | right; right; split; [lia | split; [lia | split; [lia | f_equal; lia]]] ].
Qed.

(** C5, as the program has it: the resolver has no failure of its own,
    for any glyph count.  Once FreeType is initialised, the face is
    loaded and the size is set, the header of the resolved range is
    written whatever the glyph count is, and a run can only fail with the
    error code of the load or the render of a glyph of the range; with an
    empty range it returns 0.  For a glyph count of 0 or below, a negative
    requested first index and a requested last index that is -1 or not
    below the glyph count, the range is the empty {0, glyphCount - 1},
    the header says "num_glyphs: glyphCount" and the run returns 0 with
    the marker right after the header; for the other requests the range
    is a single index, 0 or glyphCount - 1. *)
Theorem resolver_never_fails (w : Env) (face_name : string) (size f l : Z) :
  FT_Init_FreeType w = 0 ->
  fst (FT_New_Face w face_name) = 0 ->
  4 <= size ->
  FT_Set_Pixel_Sizes w size = 0 ->
  let face := snd (FT_New_Face w face_name) in
  let r := resolve f l (num_glyphs face) in
  let run := exec (render w face_name size f l) start in
  starts (header_text w face_name face size (first r) (last r)) (stdout (snd run))
  /\ (fst run = 0
      \/ exists g : Z,
           first r <= g <= last r /\ fst run <> 0
           /\ (fst run = FT_Load_Glyph w g \/ fst run = FT_Render_Glyph w g))
  /\ (last r < first r ->
      fst run = 0
      /\ stdout (snd run)
         = header_text w face_name face size (first r) (last r) ++ "# EOF" ++ LF)
  /\ (CInt.INT_MIN < num_glyphs face <= 0 -> f < 0 ->
      l = -1 \/ num_glyphs face <= l ->
      r = mkRange 0 (num_glyphs face - 1)
      /\ fst run = 0
      /\ stdout (snd run)
         = font_lines w face_name face size
             ++ range_lines 0 (num_glyphs face - 1)
             ++ count_line (num_glyphs face)
             ++ "# EOF" ++ LF)
  /\ (CInt.INT_MIN < num_glyphs face <= 0 -> f < 0 ->
      l <> -1 -> l < num_glyphs face -> r = mkRange 0 0)
  /\ (CInt.INT_MIN < num_glyphs face <= 0 -> 0 <= f ->
      r = mkRange (num_glyphs face - 1) (num_glyphs face - 1)).
Proof.
  intros E1 E2 E3 E4 face r run.
  destruct (render_outcome w face_name size f l)
    as [(_ & _ & Hwhy) | (_ & _ & _ & _ & Hrc & Hout)];
    [exfalso; lia | ].
  fold face r run in Hrc, Hout.
  set (n := Z.to_nat (last r - first r + 1)) in *.
  assert (Hempty : last r < first r ->
            fst run = 0
            /\ stdout (snd run)
               = header_text w face_name face size (first r) (last r)
                   ++ "# EOF" ++ LF).
  { intros Hlt.
    assert (Hn : n = 0%nat) by (unfold n; lia).
    rewrite Hrc, Hout, Hn. split; reflexivity. }
  split; [rewrite Hout; apply starts_app | ].
  split.
  { destruct (Z.eq_dec (fst run) 0) as [Hz | Hnz]; [now left | right].
    rewrite Hrc in Hnz.
    destruct (first_error_code w n (first r) Hnz) as (g & Hg & Hcode).
    exists g. rewrite Hrc.
    split; [unfold n in Hg; lia | ].
    split; [exact Hnz | ].
    rewrite Hcode. apply glyph_error_code. }
  split; [exact Hempty | ].
  split; [ | split].
  - intros Hcount Hf Hl.
    assert (Hr : r = mkRange 0 (num_glyphs face - 1)).
    { destruct (resolve_nonpositive_count f l (num_glyphs face) Hcount)
        as [(H & _) | [(_ & _ & H) | (_ & H1 & H2 & _)]];
        [lia | exact H | lia]. }
    split; [exact Hr | ].
    assert (Hlt : last r < first r) by (rewrite Hr; cbn [first last]; lia).
    destruct (Hempty Hlt) as [Hzero Hstd].
    split; [exact Hzero | ].
    rewrite Hstd, Hr. cbn [first last]. unfold header_text.
    replace (CInt.to_int (num_glyphs face - 1 - 0 + 1)) with (num_glyphs face).
    + now rewrite !sapp_assoc.
    + replace (num_glyphs face - 1 - 0 + 1) with (num_glyphs face) by lia.
      symmetry. apply to_int_id.
      unfold CInt.in_int, CInt.INT_MIN, CInt.INT_MAX in *. lia.
  - intros Hcount Hf Hl Hl'.
    destruct (resolve_nonpositive_count f l (num_glyphs face) Hcount)
      as [(H & _) | [(_ & H1 & _) | (_ & _ & _ & H)]];
      [lia | lia | exact H].
  - intros Hcount Hf.
    destruct (resolve_nonpositive_count f l (num_glyphs face) Hcount)
      as [(_ & H) | [(H & _) | (H & _)]];
      [exact H | lia | lia].
Qed.

Lemma resolver_never_fails_witness :
  let w := mkEnv 0 (fun _ => (0, mkFace "Empty" "Regular" 1000 800 (-200) 0))
                 (fun _ => 0) (fun _ => 6) (fun _ => 6)
                 (fun _ => mkSlot 0 0 0 (mkBitmap 0 0 0 []))
                 "2020-01-01 00:00:00" in
  let r := resolve 0 (-1) 0 in
  let run := exec (render w "empty.ttf" 48 0 (-1)) start in
  r = mkRange (-1) (-1)
  /\ (fst run = 0
      \/ exists g : Z,
           first r <= g <= last r /\ fst run <> 0
           /\ (fst run = FT_Load_Glyph w g \/ fst run = FT_Render_Glyph w g)).
Proof.
  intros w r run. split; [reflexivity | ].
  refine (proj1 (proj2 (resolver_never_fails w "empty.ttf" 48 0 (-1)
                          eq_refl eq_refl _ eq_refl))).
  lia.
Defined.

(** ** The pixel size *)

(** [main] with a pixel size on the command line: its own check, then
    [render]. *)
Lemma main_run (w : Env) (argv : list string) :
  (3 <= List.length argv)%nat ->
  let size := Stdlib_h.atoi (nth 2 argv "") in
  exec (main w argv) start
  = if (size <? 1) || (size >? 1000)
    then (-1, mkOut "" ("bad pixel height '" ++ nth 2 argv "" ++ "'" ++ LF) [])
    else exec (render w (nth 1 argv "") size
                 (if Z.of_nat (List.length argv) >? 3
                  then Stdlib_h.atoi (nth 3 argv "") else 0)
                 (if Z.of_nat (List.length argv) >? 4
                  then Stdlib_h.atoi (nth 4 argv "") else -1)) start.
Proof.
  intros Hargc size. unfold main.
  replace (Z.of_nat (List.length argv) <? 2) with false
    by (symmetry; apply Z.ltb_ge; lia).
  replace (Z.of_nat (List.length argv) >? 2) with true
    by (symmetry; rewrite Z.gtb_ltb; apply Z.ltb_lt; lia).
  rewrite exec_bind. fold size.
  destruct ((size <? 1) || (size >? 1000)); reflexivity.
Qed.

(** C7, at the command line [glyph_image font.ttf 2]: [main] accepts the
    size 2, [render] initialises FreeType and loads the face, and only
    then refuses the size with the code 100. *)
Lemma small_size_rejected_late :
  let w := mkEnv 0 (fun _ => (0, mkFace "Noto" "Sans" 1000 800 (-200) 5))
                 (fun _ => 0) (fun _ => 0) (fun _ => 0)
                 (fun _ => mkSlot 640 0 0 (mkBitmap 0 0 0 []))
                 "2020-01-01 00:00:00" in
  let run := exec (main w ["glyph_image"; "font.ttf"; "2"]) start in
  Stdlib_h.atoi "2" < 4
  /\ run = (100, mkOut "" "size 2 too small" [CallInit; CallNewFace "font.ttf"])
  /\ calls (snd run) <> [].
Proof.
  intros w run.
  split; [vm_compute; reflexivity | ].
  split; [reflexivity | ].
  change (calls (snd run)) with [CallInit; CallNewFace "font.ttf"].
  discriminate.
Qed.

(** C7, as the program has it: a pixel size given on the command line
    that is below 1 or above 1000 is refused by [main] with the code -1
    before any call to FreeType and with nothing written to the standard
    output; a size of 1, 2 or 3 passes [main] and is refused by [render]
    with nothing written to the standard output, but after FreeType was
    initialised (and, when that succeeded, after the face was loaded):
    with both successful the code is 100. *)
Theorem pixel_size_rejected (w : Env) (argv : list string) :
  (3 <= List.length argv)%nat ->
  let size := Stdlib_h.atoi (nth 2 argv "") in
  let run := exec (main w argv) start in
  (size < 1 \/ 1000 < size ->
   fst run = -1 /\ stdout (snd run) = "" /\ calls (snd run) = [])
  /\ (1 <= size < 4 ->
      fst run <> 0 /\ stdout (snd run) = ""
      /\ (exists rest : list FT_Call, calls (snd run) = CallInit :: rest)
      /\ (FT_Init_FreeType w = 0 ->
          fst (FT_New_Face w (nth 1 argv "")) = 0 ->
          fst run = 100
          /\ calls (snd run) = [CallInit; CallNewFace (nth 1 argv "")])).
Proof.
  intros Hargc size run.
  pose proof (main_run w argv Hargc) as Hmain. cbv zeta in Hmain.
  fold size run in Hmain.
  split.
  - intros Hbad.
    replace ((size <? 1) || (size >? 1000)) with true in Hmain.
    { rewrite Hmain. repeat split. }
    symmetry. apply orb_true_iff. rewrite Z.gtb_ltb.
    destruct Hbad; [left | right]; apply Z.ltb_lt; lia.
  - intros Hsmall.
    replace ((size <? 1) || (size >? 1000)) with false in Hmain.
    2:{ symmetry. apply orb_false_iff. rewrite Z.gtb_ltb.
        split; apply Z.ltb_ge; lia. }
    set (f := if Z.of_nat (List.length argv) >? 3
              then Stdlib_h.atoi (nth 3 argv "") else 0) in Hmain.
    set (l := if Z.of_nat (List.length argv) >? 4
              then Stdlib_h.atoi (nth 4 argv "") else -1) in Hmain.
    pose proof (render_run w (nth 1 argv "") size f l) as Hr. cbv zeta in Hr.
    rewrite <- Hmain in Hr.
    replace (size <? 4) with true in Hr by (symmetry; apply Z.ltb_lt; lia).
    destruct (negb (FT_Init_FreeType w =? 0)) eqn:E1.
    { rewrite Hr. cbn [fst snd stdout calls]. apply negb_eqb_true in E1.
      split; [exact E1 | split; [reflexivity | split; [now exists [] | ]]].
      intros H. contradiction. }
    destruct (negb (fst (FT_New_Face w (nth 1 argv "")) =? 0)) eqn:E2.
    { rewrite Hr. cbn [fst snd stdout calls]. apply negb_eqb_true in E2.
      split; [exact E2 | split; [reflexivity | split; [now eexists | ]]].
      intros _ H. contradiction. }
    rewrite Hr. cbn [fst snd stdout calls].
    split; [lia | split; [reflexivity | split; [now eexists | ]]].
    intros _ _. split; reflexivity.
Qed.

Lemma pixel_size_rejected_witness :
  let w := mkEnv 0 (fun _ => (0, mkFace "Noto" "Sans" 1000 800 (-200) 5))
                 (fun _ => 0) (fun _ => 0) (fun _ => 0)
                 (fun _ => mkSlot 640 0 0 (mkBitmap 0 0 0 []))
                 "2020-01-01 00:00:00" in
  let run := exec (main w ["glyph_image"; "font.ttf"; "0"]) start in
  fst run = -1 /\ stdout (snd run) = "" /\ calls (snd run) = [].
Proof.
  intros w run.
  refine (proj1 (pixel_size_rejected w ["glyph_image"; "font.ttf"; "0"] _) _).
  - simpl. lia.
  - left. vm_compute. reflexivity.
Defined.

(** ** The scenario of the specification *)

(** A font of five glyphs, the request (-3, 100) at 48 pixels: the range
    is {0, 4}, the header says "num_glyphs: 5", the five glyphs are
    loaded and rendered in order and the run returns 0. *)
Example scenario_five_glyphs :
  let slot := mkSlot 640 1 10 (mkBitmap 2 3 3 [x00; x7f; xff; x00; x00; x00]) in
  let w := mkEnv 0 (fun _ => (0, mkFace "Noto" "Sans" 1000 800 (-200) 5))
                 (fun _ => 0) (fun _ => 0) (fun _ => 0) (fun _ => slot)
                 "2020-01-01 00:00:00" in
  let run := exec (render w "f.ttf" 48 (-3) 100) start in
  resolve (-3) 100 5 = mkRange 0 4
  /\ fst run = 0
  /\ calls (snd run)
     = [CallInit; CallNewFace "f.ttf"; CallSetPixelSizes 48;
        CallLoadGlyph 0; CallRenderGlyph 0; CallLoadGlyph 1; CallRenderGlyph 1;
        CallLoadGlyph 2; CallRenderGlyph 2; CallLoadGlyph 3; CallRenderGlyph 3;
        CallLoadGlyph 4; CallRenderGlyph 4]
  /\ glyph_text w 4 = "> glyph: 4;10,10;1 -10 3 2" ++ LF ++ ":  7f" ++ LF ++ ":" ++ LF
  /\ ends (glyph_text w 4 ++ "# EOF" ++ LF) (stdout (snd run)).
Proof.
  intros slot w run.
  repeat (split; [reflexivity | ]).
  exists (header_text w "f.ttf" (mkFace "Noto" "Sans" 1000 800 (-200) 5) 48 0 4
            ++ glyph_text w 0 ++ glyph_text w 1 ++ glyph_text w 2 ++ glyph_text w 3).
  reflexivity.
Qed.

(** * Further properties of the program *)

(** ** The range resolver on requests inside and outside a font *)

Lemma resolve_valid (a b glyphCount : Z) :
  0 <= a -> a <= b -> b <= glyphCount - 1 ->
  resolve a b glyphCount = mkRange a b.
Proof.
  intros Ha Hab Hb. unfold resolve, clamp_first, clamp_last.
  replace (a <? 0) with false by (symmetry; apply Z.ltb_ge; lia).
  replace (a >=? glyphCount) with false
    by (symmetry; rewrite Z.geb_leb; apply Z.leb_gt; lia).
  replace (b =? -1) with false by (symmetry; apply Z.eqb_neq; lia).
  replace (b >=? glyphCount) with false
    by (symmetry; rewrite Z.geb_leb; apply Z.leb_gt; lia).
  replace (b <? a) with false by (symmetry; apply Z.ltb_ge; lia).
  reflexivity.
Qed.

Lemma resolve_resolved (f l glyphCount : Z) :
  0 < glyphCount <= CInt.INT_MAX ->
  resolve (first (resolve f l glyphCount)) (last (resolve f l glyphCount))
          glyphCount
  = resolve f l glyphCount.
Proof.
  intros Hn.
  pose proof (resolve_bounds f l glyphCount Hn) as (H0 & H1 & H2).
  rewrite (resolve_valid _ _ _ H0 H1 H2). now destruct (resolve f l glyphCount).
Qed.

(** A request that already lies inside the font is honoured as it is, and
    resolving twice is resolving once. *)
Theorem resolve_idempotent (f l glyphCount : Z) :
  0 < glyphCount <= CInt.INT_MAX ->
  (0 <= f -> f <= l -> l <= glyphCount - 1 ->
   resolve f l glyphCount = mkRange f l)
  /\ resolve (first (resolve f l glyphCount)) (last (resolve f l glyphCount))
             glyphCount
     = resolve f l glyphCount.
Proof.
  intros Hn. split.
  - apply resolve_valid.
  - now apply resolve_resolved.
Qed.

Lemma resolve_idempotent_witness :
  resolve (first (resolve (-3) 100 5)) (last (resolve (-3) 100 5)) 5
  = resolve (-3) 100 5.
Proof.
  refine (proj2 (resolve_idempotent (-3) 100 5 _)).
  unfold CInt.INT_MAX. lia.
Defined.

(** For a font whose glyph count is 0 or negative the resolved range is
    never a range of glyph indices of the font: a request that starts at
    0 or above gives the single index glyphCount - 1, a negative start
    gives the empty range {0, glyphCount - 1} for the sentinel or a last
    index not below the count, and the single index 0 otherwise. *)
Theorem resolve_degenerate (f l glyphCount : Z) :
  CInt.INT_MIN < glyphCount <= 0 ->
  let r := resolve f l glyphCount in
  (0 <= f -> r = mkRange (glyphCount - 1) (glyphCount - 1))
  /\ (f < 0 -> l = -1 \/ glyphCount <= l -> r = mkRange 0 (glyphCount - 1))
  /\ (f < 0 -> l <> -1 -> l < glyphCount -> r = mkRange 0 0)
  /\ (first r <= last r -> first r = last r /\ ~ 0 <= first r < glyphCount).
Proof.
  intros Hn r. subst r.
  assert (Hid : CInt.to_int (glyphCount - 1) = glyphCount - 1)
    by (apply to_int_id; unfold CInt.in_int, CInt.INT_MIN, CInt.INT_MAX in *; lia).
  unfold CInt.INT_MIN in Hn.
  assert (Hcases :
    (0 <= f /\ resolve f l glyphCount = mkRange (glyphCount - 1) (glyphCount - 1))
    \/ (f < 0 /\ (l = -1 \/ glyphCount <= l)
        /\ resolve f l glyphCount = mkRange 0 (glyphCount - 1))
    \/ (f < 0 /\ l <> -1 /\ l < glyphCount
        /\ resolve f l glyphCount = mkRange 0 0)).
  { range_cases; rewrite ?Hid;
      first [ left; split; [lia | f_equal; lia]
            | right; left; split; [lia | split; [lia | f_equal; lia]]
            | right; right; split; [lia | split; [lia | split; [lia | f_equal; lia]]] ]. }
  destruct Hcases as [(Hf & ->) | [(Hf & Hl & ->) | (Hf & Hl & Hl' & ->)]];
    cbn [first last]; repeat split; intros; try reflexivity; try lia.
Qed.

Lemma resolve_degenerate_witness :
  resolve 0 (-1) 0 = mkRange (0 - 1) (0 - 1).
Proof.
  refine (proj1 (resolve_degenerate 0 (-1) 0 _) _).
  - unfold CInt.INT_MIN. lia.
  - lia.
Defined.

(** ** Decimal texts *)

Ltac digit_step :=
  match goal with
  | |- context [Stdlib_h.digit_value ?c] =>
      let v := eval vm_compute in (Stdlib_h.digit_value c) in
      change (Stdlib_h.digit_value c) with v; cbv iota
  end.

Lemma digits_uint_acc (d : Decimal.uint) (acc : positive) :
  Stdlib_h.digits (DecimalString.NilEmpty.string_of_uint d) (Z.pos acc)
  = Z.pos (Pos.of_uint_acc d acc).
Proof.
  revert acc. induction d; intros acc; cbn [DecimalString.NilEmpty.string_of_uint
    Stdlib_h.digits Pos.of_uint_acc]; [reflexivity | ..];
    (digit_step; rewrite <- IHd; f_equal; lia).
Qed.

Lemma digits_uint (d : Decimal.uint) :
  Stdlib_h.digits (DecimalString.NilEmpty.string_of_uint d) 0
  = Z.of_N (Pos.of_uint d).
Proof.
  induction d; cbn [DecimalString.NilEmpty.string_of_uint Pos.of_uint];
    [reflexivity | ..]; cbn [Stdlib_h.digits]; digit_step;
    [exact IHd | apply digits_uint_acc ..].
Qed.

Lemma to_uint_not_nil (p : positive) : Pos.to_uint p <> Decimal.Nil.
Proof.
  intros E. pose proof (DecimalPos.Unsigned.of_to p) as H.
  rewrite E in H. discriminate H.
Qed.

Lemma fmt_d_pos (p : positive) :
  fmt_d (Z.pos p) = DecimalString.NilEmpty.string_of_uint (Pos.to_uint p).
Proof.
  unfold fmt_d. cbn [Z.to_int DecimalString.NilZero.string_of_int].
  unfold DecimalString.NilZero.string_of_uint.
  pose proof (to_uint_not_nil p). now destruct (Pos.to_uint p).
Qed.

Lemma fmt_d_neg (p : positive) : fmt_d (Z.neg p) = String "-" (fmt_d (Z.pos p)).
Proof. reflexivity. Qed.

Lemma decimal_value_uint (d : Decimal.uint) :
  decimal_value (DecimalString.NilEmpty.string_of_uint d)
  = Stdlib_h.digits (DecimalString.NilEmpty.string_of_uint d) 0.
Proof. destruct d; reflexivity. Qed.

(** Reading back what [%d] prints gives the number. *)
Lemma decimal_value_fmt_d (z : Z) : decimal_value (fmt_d z) = z.
Proof.
  destruct z as [|p|p].
  - reflexivity.
  - rewrite fmt_d_pos, decimal_value_uint, digits_uint.
    now rewrite DecimalPos.Unsigned.of_to.
  - rewrite fmt_d_neg. cbn [decimal_value].
    rewrite fmt_d_pos, digits_uint. now rewrite DecimalPos.Unsigned.of_to.
Qed.

Lemma fmt_d_inj (a b : Z) : fmt_d a = fmt_d b -> a = b.
Proof.
  intros H. rewrite <- (decimal_value_fmt_d a), <- (decimal_value_fmt_d b).
  now rewrite H.
Qed.

(** ** Characters a printed number never holds *)

Section CharFree.

Variable bad : ascii -> bool.
Hypothesis bad_decimal : free_of bad "-0123456789" = true.

Lemma free_uint_gen (d : Decimal.uint) :
  free_of bad (DecimalString.NilEmpty.string_of_uint d) = true.
Proof.
  cbn [free_of] in bad_decimal.
  repeat (apply andb_true_iff in bad_decimal;
          destruct bad_decimal as [? bad_decimal]).
  induction d; cbn [DecimalString.NilEmpty.string_of_uint free_of];
    [reflexivity | ..]; apply andb_true_iff; split; assumption.
Qed.

Lemma free_fmt_d_gen (z : Z) : free_of bad (fmt_d z) = true.
Proof.
  destruct z as [|p|p].
  - cbn [free_of] in bad_decimal.
    repeat (apply andb_true_iff in bad_decimal;
            destruct bad_decimal as [? bad_decimal]).
    cbn. apply andb_true_iff. split; [assumption | reflexivity].
  - rewrite fmt_d_pos. apply free_uint_gen.
  - rewrite fmt_d_neg, fmt_d_pos. cbn [free_of].
    apply andb_true_iff. split; [ | apply free_uint_gen].
    cbn [free_of] in bad_decimal.
    apply andb_true_iff in bad_decimal. apply bad_decimal.
Qed.

End CharFree.

Lemma free_comma_fmt_d (z : Z) : free_of is_comma (fmt_d z) = true.
Proof. now apply free_fmt_d_gen. Qed.

(** Texts cut at their first comma. *)
Lemma split_at_comma (a b c d : string) :
  free_of is_comma a = true -> free_of is_comma c = true ->
  a ++ "," ++ b = c ++ "," ++ d -> a = c /\ b = d.
Proof.
  revert c. induction a as [|x a IH]; intros c Ha Hc H.
  - destruct c as [|y c]; cbn in H.
    + now inversion H.
    + inversion H; subst y. discriminate Hc.
  - destruct c as [|y c]; cbn in H.
    + inversion H; subst x. discriminate Ha.
    + inversion H; subst y. cbn [free_of] in Ha, Hc.
      apply andb_true_iff in Ha, Hc.
      destruct (IH c (proj2 Ha) (proj2 Hc) H2) as [-> ->]. now split.
Qed.

Lemma no_comma_in (a c d : string) :
  free_of is_comma a = true -> a <> c ++ "," ++ d.
Proof.
  intros Ha E. rewrite E, free_of_app in Ha.
  apply andb_true_iff in Ha. destruct Ha as [_ Ha]. discriminate Ha.
Qed.

(** ** Which advances share a text *)

(** Two advances are written alike exactly when they have the same
    whole part and the same remainder by 63. *)
Lemma advance_text_eq_iff (a b : Z) :
  advance_text a = advance_text b
  <-> a / 64 = b / 64 /\ Z.rem a 63 = Z.rem b 63.
Proof.
  unfold advance_text, CInt.rem. rewrite !shr_6_floor.
  destruct (Z.rem a 63 =? 0) eqn:Ea; destruct (Z.rem b 63 =? 0) eqn:Eb;
    cbn [negb]; rewrite ?Z.eqb_eq, ?Z.eqb_neq in *.
  - split; [intros H; apply fmt_d_inj in H; lia | intros [-> _]; reflexivity].
  - split; [intros H; now apply no_comma_in in H; [ | apply free_comma_fmt_d]
           | intros [_ H]; lia].
  - split; [intros H; symmetry in H;
            now apply no_comma_in in H; [ | apply free_comma_fmt_d]
           | intros [_ H]; lia].
  - split.
    + intros H. apply split_at_comma in H; try apply free_comma_fmt_d.
      destruct H as [H1 H2]. apply fmt_d_inj in H1, H2. now split.
    + intros [-> ->]. reflexivity.
Qed.

(** The advances that collide are exactly the pairs 64 w and 64 w + 63:
    an advance is written like a smaller one exactly when the smaller one
    is a whole number of pixels and it is 63 above it. *)
Theorem advance_collisions (a b : Z) :
  a < b ->
  (advance_text a = advance_text b <-> a mod 64 = 0 /\ b = a + 63).
Proof.
  intros Hab. rewrite advance_text_eq_iff.
  split; intros H; Z.to_euclidean_division_equations; lia.
Qed.

Lemma advance_collisions_witness :
  advance_text 128 = advance_text 191.
Proof.
  refine (proj2 (advance_collisions 128 191 _) _).
  - lia.
  - split; reflexivity.
Defined.

(** For an advance that is not negative, the text shows the true 26.6
    fraction (adv mod 64, omitted when 0) exactly when the whole part is a
    multiple of 63 and the fraction is not 63/64. *)
Theorem advance_true_fraction (adv : Z) :
  0 <= adv ->
  (advance_text adv
   = (if adv mod 64 =? 0 then fmt_d (adv / 64)
      else fmt_d (adv / 64) ++ "," ++ fmt_d (adv mod 64))
   <-> (adv / 64) mod 63 = 0 /\ adv mod 64 <> 63).
Proof.
  intros Hadv.
  assert (Harith : Z.rem adv 63 = adv mod 64
                   <-> (adv / 64) mod 63 = 0 /\ adv mod 64 <> 63)
    by (split; intros H; Z.to_euclidean_division_equations; lia).
  rewrite <- Harith. clear Harith.
  unfold advance_text, CInt.rem. rewrite shr_6_floor.
  destruct (Z.rem adv 63 =? 0) eqn:Ea; destruct (adv mod 64 =? 0) eqn:Eb;
    cbn [negb]; rewrite ?Z.eqb_eq, ?Z.eqb_neq in *.
  - split; [lia | reflexivity].
  - split; [intros H; now apply no_comma_in in H; [ | apply free_comma_fmt_d]
           | lia].
  - split; [intros H; symmetry in H;
            now apply no_comma_in in H; [ | apply free_comma_fmt_d]
           | lia].
  - split.
    + intros H. apply split_at_comma in H; try apply free_comma_fmt_d.
      destruct H as [_ H]. now apply fmt_d_inj in H.
    + intros ->. reflexivity.
Qed.

Lemma advance_true_fraction_witness :
  advance_text 62
  = (if 62 mod 64 =? 0 then fmt_d (62 / 64)
     else fmt_d (62 / 64) ++ "," ++ fmt_d (62 mod 64)).
Proof.
  refine (proj2 (advance_true_fraction 62 _) _).
  - lia.
  - split; [reflexivity | discriminate].
Defined.

(** ** The glyph loop, with its diagnostics and its calls *)

Lemma glyph_error_zero (w : Env) (g : Z) :
  glyph_error w g = 0 <-> FT_Load_Glyph w g = 0 /\ FT_Render_Glyph w g = 0.
Proof.
  unfold glyph_error. destruct (FT_Load_Glyph w g =? 0) eqn:E; cbn [negb].
  - apply Z.eqb_eq in E. rewrite E. tauto.
  - apply Z.eqb_neq in E. tauto.
Qed.

Lemma dump_glyph_ok (w : Env) (g : Z) (o : Out) :
  glyph_error w g = 0 ->
  dump_glyph w g o
  = (Next tt, mkOut (stdout o ++ glyph_text w g) (stderr o)
                    (calls o ++ glyph_calls g)).
Proof.
  intros H. apply glyph_error_zero in H. destruct H as [Hl Hr].
  unfold dump_glyph, glyph_text, glyph_calls, bind, ft_call, fail_if,
    printf, ret.
  rewrite Hl, Hr. cbn [Z.eqb negb stdout stderr calls].
  now rewrite sapp_assoc, <- app_assoc.
Qed.

Lemma dump_glyph_fail (w : Env) (g : Z) (o : Out) :
  glyph_error w g <> 0 ->
  dump_glyph w g o
  = (Return (glyph_error w g),
     mkOut (stdout o) (stderr o ++ glyph_diagnostic w g)
           (calls o ++ failed_glyph_calls w g)).
Proof.
  intros H.
  unfold dump_glyph, glyph_error, glyph_diagnostic, failed_glyph_calls,
    glyph_calls, bind, ft_call, fail_if, fprintf_stderr, return_, ret in *.
  destruct (negb (FT_Load_Glyph w g =? 0)) eqn:El;
    cbn [stdout stderr calls]; [reflexivity | ].
  destruct (negb (FT_Render_Glyph w g =? 0)) eqn:Er;
    cbn [stdout stderr calls].
  - now rewrite <- app_assoc.
  - apply negb_eqb_false in Er. contradiction.
Qed.

(** While the glyphs succeed the loop appends their records and their
    calls, in the order of the indices. *)
Lemma for_glyphs_ok_prefix (w : Env) (m : nat) :
  forall (fuel : nat) (g l : Z) (o : Out),
    (forall i : Z, g <= i < g + Z.of_nat m -> glyph_error w i = 0) ->
    g + Z.of_nat m - 1 <= l ->
    (m <= fuel)%nat ->
    for_glyphs w fuel g l o
    = for_glyphs w (fuel - m) (g + Z.of_nat m) l
        (mkOut (stdout o
                  ++ String.concat ""
                       (map (glyph_text w)
                            (map (fun i : nat => g + Z.of_nat i) (seq 0 m))))
               (stderr o)
               (calls o
                  ++ flat_map glyph_calls
                       (map (fun i : nat => g + Z.of_nat i) (seq 0 m)))%list).
Proof.
  induction m as [|m IH]; intros fuel g l o Hok Hl Hfuel.
  - cbn [seq map flat_map String.concat].
    rewrite sapp_nil_r, app_nil_r, Nat.sub_0_r, Z.add_0_r. now destruct o.
  - destruct fuel as [|fuel]; [lia | ].
    cbn [for_glyphs].
    replace (g <=? l) with true by (symmetry; apply Z.leb_le; lia).
    unfold bind at 1. rewrite dump_glyph_ok by (apply Hok; lia).
    rewrite (IH fuel (g + 1) l) by (try (intros i Hi; apply Hok); lia).
    cbn [stdout stderr calls].
    rewrite <- cons_seq, <- seq_shift, !map_cons, !map_map.
    cbn [flat_map]. rewrite concat_cons, Z.add_0_r.
    replace (Nat.sub (S fuel) (S m)) with (fuel - m)%nat by lia.
    replace (g + 1 + Z.of_nat m) with (g + Z.of_nat (S m)) by lia.
    rewrite !sapp_assoc, <- !app_assoc.
    assert (Hshift : forall (A : Type) (h : Z -> A),
              map (fun x : nat => h (g + 1 + Z.of_nat x)) (seq 0 m)
              = map (fun x : nat => h (g + Z.of_nat (S x))) (seq 0 m)).
    { intros A h. apply map_ext. intros i. f_equal. lia. }
    pose proof (Hshift Z (fun z : Z => z)) as Hshift'. cbv beta in Hshift'.
    now rewrite !Hshift, Hshift'.
Qed.

Lemma glyph_indices_upto (g k : Z) :
  glyph_indices g (k - 1)
  = map (fun i : nat => g + Z.of_nat i) (seq 0 (Z.to_nat (k - g))).
Proof. unfold glyph_indices. do 2 f_equal. lia. Qed.

(** A run that passes the four set-up steps goes on from the header with
    the three set-up calls made. *)
Lemma render_reaches_loop (w : Env) (face_name : string) (size f l : Z) :
  FT_Init_FreeType w = 0 ->
  fst (FT_New_Face w face_name) = 0 ->
  4 <= size ->
  FT_Set_Pixel_Sizes w size = 0 ->
  let face := snd (FT_New_Face w face_name) in
  let r := resolve f l (num_glyphs face) in
  exec (render w face_name size f l) start
  = exec (print_header w face_name face size (first r) (last r) ;;
          for_glyphs w (Z.to_nat (last r - first r + 1)) (first r) (last r) ;;
          printf ("# EOF" ++ LF) ;;
          ret 0)
         (mkOut "" "" (setup_calls face_name size)).
Proof.
  intros H1 H2 H3 H4 face r.
  assert (E1 : negb (FT_Init_FreeType w =? 0) = false) by now rewrite H1.
  assert (E2 : negb (fst (FT_New_Face w face_name) =? 0) = false)
    by now rewrite H2.
  assert (E3 : (size <? 4) = false) by (apply Z.ltb_ge; lia).
  assert (E4 : negb (FT_Set_Pixel_Sizes w size =? 0) = false) by now rewrite H4.
  unfold render, start. run_call. run_pass E1. run_call. run_pass E2.
  rewrite exec_bind, E3. unfold ret at 1. cbv beta iota.
  run_call. run_pass E4. reflexivity.
Qed.

(** The first glyph that fails stops the run: the dump holds the header
    and the records of the glyphs before it and no marker, the return
    code is the error of the call that failed, the only diagnostic names
    that call and the glyph index, and FreeType is not called again (the
    glyph is not rendered when its load failed). *)
Theorem first_failure_stops_run (w : Env) (face_name : string) (size f l k : Z) :
  FT_Init_FreeType w = 0 ->
  fst (FT_New_Face w face_name) = 0 ->
  4 <= size ->
  FT_Set_Pixel_Sizes w size = 0 ->
  let face := snd (FT_New_Face w face_name) in
  let r := resolve f l (num_glyphs face) in
  first r <= k <= last r ->
  (forall i : Z, first r <= i < k ->
                 FT_Load_Glyph w i = 0 /\ FT_Render_Glyph w i = 0) ->
  FT_Load_Glyph w k <> 0 \/ FT_Render_Glyph w k <> 0 ->
  exec (render w face_name size f l) start
  = (if negb (FT_Load_Glyph w k =? 0)
     then FT_Load_Glyph w k else FT_Render_Glyph w k,
     mkOut (header_text w face_name face size (first r) (last r)
              ++ String.concat ""
                   (map (glyph_text w) (glyph_indices (first r) (k - 1))))
           (if negb (FT_Load_Glyph w k =? 0)
            then "failed to load glyph " ++ fmt_d k ++ LF
            else "failed to render glyph " ++ fmt_d k ++ LF)
           (setup_calls face_name size
              ++ flat_map glyph_calls (glyph_indices (first r) (k - 1))
              ++ (if negb (FT_Load_Glyph w k =? 0)
                  then [CallLoadGlyph k]
                  else [CallLoadGlyph k; CallRenderGlyph k]))%list).
Proof.
  intros H1 H2 H3 H4 face r Hk Hbefore Hfail.
  rewrite (render_reaches_loop w face_name size f l H1 H2 H3 H4).
  fold face. fold r.
  rewrite exec_bind, print_header_run, exec_bind.
  cbn [stdout stderr calls String.append].
  set (m := Z.to_nat (k - first r)).
  rewrite (for_glyphs_ok_prefix w m)
    by (try (intros i Hi; apply glyph_error_zero, Hbefore); lia).
  replace (Z.to_nat (last r - first r + 1) - m)%nat
    with (S (Z.to_nat (last r - first r + 1) - m - 1)) by lia.
  replace (first r + Z.of_nat m) with k by lia.
  cbn [for_glyphs].
  replace (k <=? last r) with true by (symmetry; apply Z.leb_le; lia).
  unfold bind at 1.
  rewrite dump_glyph_fail by (now apply glyph_error_iff).
  cbn [stdout stderr calls String.append].
  rewrite glyph_indices_upto. fold m.
  unfold glyph_error, glyph_diagnostic, failed_glyph_calls, glyph_calls.
  now rewrite app_assoc.
Qed.

Lemma first_failure_stops_run_witness :
  let w := mkEnv 0 (fun _ => (0, mkFace "Noto" "Sans" 1000 800 (-200) 5))
                 (fun _ => 0) (fun g => if g =? 2 then 36 else 0) (fun _ => 0)
                 (fun _ => mkSlot 640 0 0 (mkBitmap 0 0 0 []))
                 "2020-01-01 00:00:00" in
  let run := exec (render w "f.ttf" 48 0 (-1)) start in
  fst run = 36
  /\ stderr (snd run) = "failed to load glyph 2" ++ LF
  /\ calls (snd run)
     = [CallInit; CallNewFace "f.ttf"; CallSetPixelSizes 48;
        CallLoadGlyph 0; CallRenderGlyph 0; CallLoadGlyph 1; CallRenderGlyph 1;
        CallLoadGlyph 2].
Proof.
  intros w run.
  assert (Hrun := first_failure_stops_run w "f.ttf" 48 0 (-1) 2
                    eq_refl eq_refl).
  cbv zeta in Hrun.
  assert (H3 : 4 <= 48) by lia.
  assert (Hk : 0 <= 2 <= 4) by lia.
  specialize (Hrun H3 eq_refl Hk).
  assert (Hbefore : forall i : Z, 0 <= i < 2 ->
            FT_Load_Glyph w i = 0 /\ FT_Render_Glyph w i = 0).
  { intros i Hi. cbn. replace (i =? 2) with false
      by (symmetry; apply Z.eqb_neq; lia). now split. }
  specialize (Hrun Hbefore (or_introl (fun E => Z.lt_irrefl 0
                (eq_ind 36 (fun z => 0 < z) eq_refl 0 E)))).
  unfold run. rewrite Hrun. repeat split.
Defined.

(** When no glyph of the range fails the run returns 0, leaves the
    standard error empty, has made the two calls of each glyph in the
    order of the indices, and the dump is the header, one record for each
    index of the range in increasing order, and the marker; for a glyph
    count > 0 the number of records is the number of the header's
    "num_glyphs" line. *)
Theorem complete_dump (w : Env) (face_name : string) (size f l : Z) :
  FT_Init_FreeType w = 0 ->
  fst (FT_New_Face w face_name) = 0 ->
  4 <= size ->
  FT_Set_Pixel_Sizes w size = 0 ->
  let face := snd (FT_New_Face w face_name) in
  let r := resolve f l (num_glyphs face) in
  (forall i : Z, first r <= i <= last r ->
                 FT_Load_Glyph w i = 0 /\ FT_Render_Glyph w i = 0) ->
  exec (render w face_name size f l) start
  = (0,
     mkOut (header_text w face_name face size (first r) (last r)
              ++ String.concat ""
                   (map (glyph_text w) (glyph_indices (first r) (last r)))
              ++ "# EOF" ++ LF)
           ""
           (setup_calls face_name size
              ++ flat_map glyph_calls (glyph_indices (first r) (last r)))%list)
  /\ (0 < num_glyphs face <= CInt.INT_MAX ->
      header_text w face_name face size (first r) (last r)
      = font_lines w face_name face size
          ++ range_lines (first r) (last r)
          ++ count_line
               (Z.of_nat (List.length (glyph_indices (first r) (last r))))).
Proof.
  intros H1 H2 H3 H4 face r Hok. split.
  - rewrite (render_reaches_loop w face_name size f l H1 H2 H3 H4).
    fold face. fold r.
    rewrite exec_bind, print_header_run, exec_bind.
    cbn [stdout stderr calls String.append].
    set (n := Z.to_nat (last r - first r + 1)).
    assert (Hloop :
      for_glyphs w n (first r) (last r)
        (mkOut (header_text w face_name face size (first r) (last r)) ""
               (setup_calls face_name size))
      = for_glyphs w (n - n) (first r + Z.of_nat n) (last r)
          (mkOut (header_text w face_name face size (first r) (last r)
                    ++ String.concat ""
                         (map (glyph_text w)
                              (map (fun i : nat => first r + Z.of_nat i)
                                   (seq 0 n))))
                 ""
                 (setup_calls face_name size
                    ++ flat_map glyph_calls
                         (map (fun i : nat => first r + Z.of_nat i)
                              (seq 0 n)))%list)).
    { destruct (Nat.eq_dec n 0) as [E | E].
      - rewrite E. cbn [seq map flat_map String.concat Nat.sub].
        now rewrite sapp_nil_r, app_nil_r.
      - apply (for_glyphs_ok_prefix w n);
          [intros i Hi; apply glyph_error_zero, Hok | | ]; lia. }
    rewrite Hloop.
    rewrite Nat.sub_diag. cbn [for_glyphs]. unfold ret at 1.
    unfold exec, bind, printf, ret. cbn [stdout stderr calls].
    unfold glyph_indices. fold n.
    now rewrite !sapp_assoc.
  - intros Hn. unfold header_text. do 3 f_equal.
    unfold glyph_indices. rewrite length_map, length_seq.
    pose proof (resolve_bounds f l (num_glyphs face) Hn) as Hb. fold r in Hb.
    rewrite to_int_id
      by (unfold CInt.in_int, CInt.INT_MIN, CInt.INT_MAX in *; lia).
    lia.
Qed.

Lemma complete_dump_witness :
  let w := mkEnv 0 (fun _ => (0, mkFace "Noto" "Sans" 1000 800 (-200) 2))
                 (fun _ => 0) (fun _ => 0) (fun _ => 0)
                 (fun _ => mkSlot 640 0 0 (mkBitmap 0 0 0 []))
                 "2020-01-01 00:00:00" in
  let run := exec (render w "f.ttf" 48 0 (-1)) start in
  fst run = 0
  /\ stderr (snd run) = ""
  /\ calls (snd run)
     = [CallInit; CallNewFace "f.ttf"; CallSetPixelSizes 48;
        CallLoadGlyph 0; CallRenderGlyph 0; CallLoadGlyph 1; CallRenderGlyph 1].
Proof.
  intros w run.
  assert (H3 : 4 <= 48) by lia.
  assert (Hrun := proj1 (complete_dump w "f.ttf" 48 0 (-1)
                           eq_refl eq_refl H3 eq_refl
                           (fun i _ => conj eq_refl eq_refl))).
  unfold run. rewrite Hrun. repeat split.
Defined.

(** ** The set-up steps *)

Lemma setup_failure_cases (w : Env) (face_name : string) (size f l : Z) :
  let run := exec (render w face_name size f l) start in
  (FT_Init_FreeType w <> 0 ->
   run = (FT_Init_FreeType w,
          mkOut "" ("failed to init freetype" ++ LF) [CallInit]))
  /\ (FT_Init_FreeType w = 0 -> fst (FT_New_Face w face_name) <> 0 ->
      run = (fst (FT_New_Face w face_name),
             mkOut "" ("failed to create face for '" ++ face_name ++ "'" ++ LF)
                   [CallInit; CallNewFace face_name]))
  /\ (FT_Init_FreeType w = 0 -> fst (FT_New_Face w face_name) = 0 ->
      size < 4 ->
      run = (100,
             mkOut "" ("size " ++ fmt_d size ++ " too small")
                   [CallInit; CallNewFace face_name]))
  /\ (FT_Init_FreeType w = 0 -> fst (FT_New_Face w face_name) = 0 ->
      4 <= size -> FT_Set_Pixel_Sizes w size <> 0 ->
      run = (FT_Set_Pixel_Sizes w size,
             mkOut "" ("failed to set size " ++ fmt_d size ++ LF)
                   [CallInit; CallNewFace face_name; CallSetPixelSizes size])).
Proof.
  intros run.
  pose proof (render_run w face_name size f l) as H. cbv zeta in H.
  fold run in H.
  destruct (negb (FT_Init_FreeType w =? 0)) eqn:E1.
  { apply negb_eqb_true in E1. repeat split; intros; try contradiction.
    exact H. }
  apply negb_eqb_false in E1.
  destruct (negb (fst (FT_New_Face w face_name) =? 0)) eqn:E2.
  { apply negb_eqb_true in E2. repeat split; intros; try contradiction.
    exact H. }
  apply negb_eqb_false in E2.
  destruct (size <? 4) eqn:E3.
  { apply Z.ltb_lt in E3. repeat split; intros; try contradiction; try lia.
    exact H. }
  apply Z.ltb_ge in E3.
  destruct (negb (FT_Set_Pixel_Sizes w size =? 0)) eqn:E4.
  { apply negb_eqb_true in E4. repeat split; intros; try contradiction; try lia.
    exact H. }
  apply negb_eqb_false in E4.
  repeat split; intros; try contradiction; lia.
Qed.

(** The four set-up steps are tried in the order initialization, face,
    size check, size setting; the first that fails ends the run with its
    own code and its own single diagnostic, before anything is written to
    the standard output and before any later FreeType call. *)
Theorem setup_failures (w : Env) (face_name : string) (size f l : Z) :
  let run := exec (render w face_name size f l) start in
  (FT_Init_FreeType w <> 0 ->
   run = (FT_Init_FreeType w,
          mkOut "" ("failed to init freetype" ++ LF) [CallInit]))
  /\ (FT_Init_FreeType w = 0 -> fst (FT_New_Face w face_name) <> 0 ->
      run = (fst (FT_New_Face w face_name),
             mkOut "" ("failed to create face for '" ++ face_name ++ "'" ++ LF)
                   [CallInit; CallNewFace face_name]))
  /\ (FT_Init_FreeType w = 0 -> fst (FT_New_Face w face_name) = 0 ->
      size < 4 ->
      run = (100,
             mkOut "" ("size " ++ fmt_d size ++ " too small")
                   [CallInit; CallNewFace face_name]))
  /\ (FT_Init_FreeType w = 0 -> fst (FT_New_Face w face_name) = 0 ->
      4 <= size -> FT_Set_Pixel_Sizes w size <> 0 ->
      run = (FT_Set_Pixel_Sizes w size,
             mkOut "" ("failed to set size " ++ fmt_d size ++ LF)
                   [CallInit; CallNewFace face_name; CallSetPixelSizes size])).
Proof.
  intros run. subst run.
  exact (setup_failure_cases w face_name size f l).
Qed.

(** ** The calls of a run *)

Lemma for_glyphs_calls (w : Env) (fuel : nat) :
  forall (g l : Z) (o : Out),
  exists cs : list FT_Call,
    calls (snd (for_glyphs w fuel g l o)) = (calls o ++ cs)%list
    /\ Forall (fun c => exists i : Z, g <= i <= l
                          /\ (c = CallLoadGlyph i \/ c = CallRenderGlyph i)) cs.
Proof.
  induction fuel as [|fuel IH]; intros g l o.
  - exists []. cbn. now rewrite app_nil_r.
  - cbn [for_glyphs]. destruct (g <=? l) eqn:E.
    2:{ exists []. cbn. now rewrite app_nil_r. }
    apply Z.leb_le in E. unfold bind.
    destruct (Z.eq_dec (glyph_error w g) 0) as [Hok | Hfail].
    + rewrite (dump_glyph_ok w g o Hok).
      destruct (IH (g + 1) l
                  (mkOut (stdout o ++ glyph_text w g) (stderr o)
                         (calls o ++ glyph_calls g))) as (cs & Hcs & Hall).
      exists (glyph_calls g ++ cs)%list. split.
      * rewrite Hcs. cbn [calls]. now rewrite app_assoc.
      * apply Forall_app. split.
        -- repeat constructor; exists g; (split; [lia | auto]).
        -- eapply Forall_impl; [ | exact Hall].
           intros c (i & Hi & Hc). exists i. split; [lia | exact Hc].
    + rewrite (dump_glyph_fail w g o Hfail). cbn [snd calls].
      exists (failed_glyph_calls w g). split; [reflexivity | ].
      unfold failed_glyph_calls, glyph_calls.
      destruct (negb (FT_Load_Glyph w g =? 0));
        repeat constructor; exists g; (split; [lia | auto]).
Qed.

(** What [render] may ask of FreeType: the initialization first, the face
    under the given name, the given size and only when it is 4 or more,
    and glyphs of the resolved range. *)
Lemma render_calls (w : Env) (face_name : string) (size f l : Z) :
  let r := resolve f l (num_glyphs (snd (FT_New_Face w face_name))) in
  let cs := calls (snd (exec (render w face_name size f l) start)) in
  (exists rest : list FT_Call, cs = CallInit :: rest)
  /\ Forall (fun c =>
               c = CallInit \/ c = CallNewFace face_name
               \/ (c = CallSetPixelSizes size /\ 4 <= size)
               \/ exists i : Z, first r <= i <= last r
                    /\ (c = CallLoadGlyph i \/ c = CallRenderGlyph i)) cs.
Proof.
  intros r cs. subst cs.
  pose proof (setup_failure_cases w face_name size f l) as (F1 & F2 & F3 & F4).
  destruct (Z.eq_dec (FT_Init_FreeType w) 0) as [E1 | E1].
  2:{ rewrite (F1 E1). cbn [snd calls]. split; [now eexists | ].
      repeat (apply Forall_cons; [auto 6 | ]); apply Forall_nil. }
  destruct (Z.eq_dec (fst (FT_New_Face w face_name)) 0) as [E2 | E2].
  2:{ rewrite (F2 E1 E2). cbn [snd calls]. split; [now eexists | ].
      repeat (apply Forall_cons; [auto 6 | ]); apply Forall_nil. }
  destruct (Z_lt_le_dec size 4) as [E3 | E3].
  { rewrite (F3 E1 E2 E3). cbn [snd calls]. split; [now eexists | ].
    repeat (apply Forall_cons; [auto 6 | ]); apply Forall_nil. }
  destruct (Z.eq_dec (FT_Set_Pixel_Sizes w size) 0) as [E4 | E4].
  2:{ rewrite (F4 E1 E2 E3 E4). cbn [snd calls]. split; [now eexists | ].
      repeat (apply Forall_cons; [auto 6 | ]); apply Forall_nil. }
  rewrite (render_reaches_loop w face_name size f l E1 E2 E3 E4). fold r.
  rewrite exec_bind, print_header_run, exec_bind.
  cbn [stdout stderr calls String.append].
  set (o1 := mkOut _ _ _).
  destruct (for_glyphs_calls w (Z.to_nat (last r - first r + 1))
              (first r) (last r) o1) as (cs & Hcs & Hall).
  assert (Hfin : forall cs' : list FT_Call,
            cs' = (setup_calls face_name size ++ cs)%list ->
            (exists rest : list FT_Call, cs' = CallInit :: rest)
            /\ Forall (fun c =>
                  c = CallInit \/ c = CallNewFace face_name
                  \/ (c = CallSetPixelSizes size /\ 4 <= size)
                  \/ exists i : Z, first r <= i <= last r
                       /\ (c = CallLoadGlyph i \/ c = CallRenderGlyph i)) cs').
  { intros cs' ->. split; [now eexists | ].
    apply Forall_app. split.
    - unfold setup_calls.
      repeat (apply Forall_cons; [auto 6 | ]); apply Forall_nil.
    - eapply Forall_impl; [ | exact Hall]. cbv beta. auto 6. }
  revert Hcs.
  destruct (for_glyphs w (Z.to_nat (last r - first r + 1)) (first r) (last r) o1)
    as [[[] | rc] o2]; cbn [snd]; intros Hcs; apply Hfin.
  - unfold exec, bind, printf, ret. cbn [snd calls]. exact Hcs.
  - exact Hcs.
Qed.

(** ** The command line *)

Lemma main_too_few (w : Env) (argv : list string) :
  (List.length argv < 2)%nat ->
  exec (main w argv) start = (-1, mkOut "" (nth 0 argv "" ++ usage) []).
Proof.
  intros H. unfold main.
  replace (Z.of_nat (List.length argv) <? 2) with true
    by (symmetry; apply Z.ltb_lt; lia).
  reflexivity.
Qed.

Lemma main_default (w : Env) (argv : list string) :
  List.length argv = 2%nat ->
  exec (main w argv) start = exec (render w (nth 1 argv "") 48 0 (-1)) start.
Proof.
  intros H. unfold main. rewrite H. cbn [Z.of_nat Pos.of_succ_nat Pos.succ].
  cbn [Z.ltb Z.gtb Z.compare Pos.compare Pos.compare_cont].
  now rewrite exec_bind.
Qed.

(** [main] makes no FreeType call exactly when it rejects the command
    line, which is when the font name is missing or a pixel height is
    given that [atoi] reads below 1 or above 1000; it then returns -1
    with one diagnostic (the usage line after the program name, or the
    pixel height as it was typed) and an empty standard output.  In every
    other case FreeType is initialised first. *)
Theorem main_rejects (w : Env) (argv : list string) :
  let run := exec (main w argv) start in
  let size := Stdlib_h.atoi (nth 2 argv "") in
  ((List.length argv < 2)%nat ->
   run = (-1, mkOut "" (nth 0 argv "" ++ usage) []))
  /\ ((3 <= List.length argv)%nat -> size < 1 \/ 1000 < size ->
      run = (-1, mkOut "" ("bad pixel height '" ++ nth 2 argv "" ++ "'" ++ LF) []))
  /\ (calls (snd run) = []
      <-> (List.length argv < 2)%nat
          \/ ((3 <= List.length argv)%nat /\ (size < 1 \/ 1000 < size)))
  /\ (List.length argv = 2%nat
      \/ ((3 <= List.length argv)%nat /\ 1 <= size <= 1000) ->
      exists rest : list FT_Call, calls (snd run) = CallInit :: rest).
Proof.
  intros run size.
  assert (Hfew : (List.length argv < 2)%nat ->
                 run = (-1, mkOut "" (nth 0 argv "" ++ usage) []))
    by apply main_too_few.
  assert (Hbad : (3 <= List.length argv)%nat -> size < 1 \/ 1000 < size ->
                 run = (-1, mkOut "" ("bad pixel height '" ++ nth 2 argv ""
                                        ++ "'" ++ LF) [])).
  { intros Hargc Hsize. unfold run. rewrite (main_run w argv Hargc).
    fold size.
    replace ((size <? 1) || (size >? 1000)) with true; [reflexivity | ].
    symmetry. apply orb_true_iff. rewrite Z.gtb_ltb.
    destruct Hsize; [left | right]; apply Z.ltb_lt; lia. }
  assert (Hinit : List.length argv = 2%nat
                  \/ ((3 <= List.length argv)%nat /\ 1 <= size <= 1000) ->
                  exists rest : list FT_Call, calls (snd run) = CallInit :: rest).
  { intros [E | [Hargc Hsize]]; unfold run.
    - rewrite (main_default w argv E).
      destruct (render_calls w (nth 1 argv "") 48 0 (-1)) as [Hr _].
      exact Hr.
    - rewrite (main_run w argv Hargc). fold size.
      replace ((size <? 1) || (size >? 1000)) with false.
      2:{ symmetry. apply orb_false_iff. rewrite Z.gtb_ltb.
          split; apply Z.ltb_ge; lia. }
      match goal with
      | |- exists rest, calls (snd (exec (render ?w' ?n ?s ?a ?b) start)) = _ =>
          destruct (render_calls w' n s a b) as [Hr _]
      end.
      exact Hr. }
  split; [exact Hfew | split; [exact Hbad | split; [ | exact Hinit]]].
  split.
  - intros Hcalls.
    destruct (Nat.lt_ge_cases (List.length argv) 2) as [H2 | H2]; [now left | ].
    right.
    destruct (Nat.eq_dec (List.length argv) 2) as [E | E].
    + exfalso. destruct (Hinit (or_introl E)) as [rest Hr].
      rewrite Hr in Hcalls. discriminate Hcalls.
    + split; [lia | ].
      destruct (Z_lt_le_dec size 1) as [H1 | H1]; [now left | ].
      destruct (Z_lt_le_dec 1000 size) as [H3 | H3]; [now right | ].
      exfalso.
      assert (Hargc : (3 <= List.length argv)%nat) by lia.
      destruct (Hinit (or_intror (conj Hargc (conj H1 H3)))) as [rest Hr].
      rewrite Hr in Hcalls. discriminate Hcalls.
  - intros [H | [H1 H2]]; [rewrite (Hfew H) | rewrite (Hbad H1 H2)]; reflexivity.
Qed.

(** Whatever the command line and whatever FreeType answers, the program
    asks for the face under the name it was given, for no pixel size
    outside 4 .. 1000, and, when the glyph count of the font is a
    positive [int], for no glyph outside the font. *)
Theorem main_call_discipline (w : Env) (argv : list string) (c : FT_Call) :
  In c (calls (snd (exec (main w argv) start))) ->
  match c with
  | CallInit => True
  | CallNewFace face_name => face_name = nth 1 argv ""
  | CallSetPixelSizes size => 4 <= size <= 1000
  | CallLoadGlyph g | CallRenderGlyph g =>
      let n := num_glyphs (snd (FT_New_Face w (nth 1 argv ""))) in
      0 < n <= CInt.INT_MAX -> 0 <= g < n
  end.
Proof.
  intros Hin.
  assert (Hrender : forall size a b : Z,
            1 <= size <= 1000 ->
            In c (calls (snd (exec (render w (nth 1 argv "") size a b) start))) ->
            match c with
            | CallInit => True
            | CallNewFace face_name => face_name = nth 1 argv ""
            | CallSetPixelSizes size => 4 <= size <= 1000
            | CallLoadGlyph g | CallRenderGlyph g =>
                let n := num_glyphs (snd (FT_New_Face w (nth 1 argv ""))) in
                0 < n <= CInt.INT_MAX -> 0 <= g < n
            end).
  { intros size a b Hsize Hc.
    destruct (render_calls w (nth 1 argv "") size a b) as [_ Hall].
    cbv zeta in Hall. rewrite Forall_forall in Hall.
    specialize (Hall c Hc).
    destruct Hall as [-> | [-> | [[-> Hs] | (i & Hi & [-> | ->])]]];
      cbv zeta; try exact I; try reflexivity; try lia;
      intros Hn;
      pose proof (resolve_bounds a b _ Hn); lia. }
  destruct (Nat.lt_ge_cases (List.length argv) 2) as [H2 | H2].
  { rewrite (main_too_few w argv H2) in Hin. destruct Hin. }
  destruct (Nat.eq_dec (List.length argv) 2) as [E | E].
  { rewrite (main_default w argv E) in Hin. apply (Hrender 48 0 (-1)); [lia | exact Hin]. }
  rewrite (main_run w argv) in Hin by lia.
  destruct ((Stdlib_h.atoi (nth 2 argv "") <? 1)
            || (Stdlib_h.atoi (nth 2 argv "") >? 1000)) eqn:Esize.
  { destruct Hin. }
  apply orb_false_iff in Esize. rewrite Z.gtb_ltb in Esize.
  destruct Esize as [Es1 Es2]. apply Z.ltb_ge in Es1, Es2.
  eapply Hrender; [ | exact Hin]. lia.
Qed.

Lemma main_call_discipline_witness :
  let w := mkEnv 0 (fun _ => (0, mkFace "Noto" "Sans" 1000 800 (-200) 5))
                 (fun _ => 0) (fun _ => 0) (fun _ => 0)
                 (fun _ => mkSlot 640 0 0 (mkBitmap 0 0 0 []))
                 "2020-01-01 00:00:00" in
  let argv := ["glyph_image"; "f.ttf"; "12"; "3"; "100"] in
  In (CallLoadGlyph 4) (calls (snd (exec (main w argv) start)))
  /\ 0 <= 4 < 5.
Proof.
  intros w argv.
  assert (Hin : In (CallLoadGlyph 4) (calls (snd (exec (main w argv) start))))
    by (vm_compute; tauto).
  split; [exact Hin | ].
  refine (main_call_discipline w argv (CallLoadGlyph 4) Hin _).
  unfold CInt.INT_MAX. simpl. lia.
Defined.

(** [atoi] reads back what [%d] prints, for every [int]. *)
Lemma atoi_fmt_d (z : Z) : CInt.in_int z -> Stdlib_h.atoi (fmt_d z) = z.
Proof.
  intros Hz.
  assert (H : Stdlib_h.atoi (fmt_d z) = CInt.to_int (decimal_value (fmt_d z))).
  { destruct z as [|p|p]; [reflexivity | | reflexivity].
    rewrite fmt_d_pos. pose proof (to_uint_not_nil p) as Hnil.
    destruct (Pos.to_uint p); [congruence | reflexivity ..]. }
  rewrite H, decimal_value_fmt_d. now apply to_int_id.
Qed.

(** [render] uses the two requested indices only through the resolved
    range. *)
Lemma render_same_range (w : Env) (face_name : string) (size f l f' l' : Z) :
  resolve f l (num_glyphs (snd (FT_New_Face w face_name)))
  = resolve f' l' (num_glyphs (snd (FT_New_Face w face_name))) ->
  exec (render w face_name size f l) start
  = exec (render w face_name size f' l') start.
Proof.
  intros Hr.
  pose proof (setup_failure_cases w face_name size f l) as (F1 & F2 & F3 & F4).
  pose proof (setup_failure_cases w face_name size f' l') as (G1 & G2 & G3 & G4).
  destruct (Z.eq_dec (FT_Init_FreeType w) 0) as [E1 | E1];
    [ | now rewrite (F1 E1), (G1 E1)].
  destruct (Z.eq_dec (fst (FT_New_Face w face_name)) 0) as [E2 | E2];
    [ | now rewrite (F2 E1 E2), (G2 E1 E2)].
  destruct (Z_lt_le_dec size 4) as [E3 | E3];
    [now rewrite (F3 E1 E2 E3), (G3 E1 E2 E3) | ].
  destruct (Z.eq_dec (FT_Set_Pixel_Sizes w size) 0) as [E4 | E4];
    [ | now rewrite (F4 E1 E2 E3 E4), (G4 E1 E2 E3 E4)].
  rewrite !(render_reaches_loop w face_name size _ _ E1 E2 E3 E4).
  now rewrite Hr.
Qed.

(** A dump can be reproduced from its own header: running the program
    with the size and the "first" and "last" indices the header shows, as
    they are printed, is the same run (return code, dump, diagnostics and
    FreeType calls) as the run that wrote the header. *)
Theorem dump_reproducible (w : Env) (prog font : string) (size f l : Z) :
  1 <= size <= 1000 ->
  0 < num_glyphs (snd (FT_New_Face w font)) <= CInt.INT_MAX ->
  let r := resolve f l (num_glyphs (snd (FT_New_Face w font))) in
  exec (main w [prog; font; fmt_d size; fmt_d (first r); fmt_d (last r)]) start
  = exec (render w font size f l) start.
Proof.
  intros Hsize Hn r.
  pose proof (resolve_bounds f l _ Hn) as Hb. fold r in Hb.
  assert (Hin : forall z : Z, 0 <= z <= CInt.INT_MAX -> CInt.in_int z)
    by (intros z Hz; unfold CInt.in_int, CInt.INT_MIN, CInt.INT_MAX in *; lia).
  rewrite main_run by (simpl; lia).
  cbn [nth List.length Z.of_nat Pos.of_succ_nat Pos.succ Z.gtb Z.compare
       Pos.compare Pos.compare_cont].
  rewrite !atoi_fmt_d by (apply Hin; unfold CInt.INT_MAX in *; lia).
  replace ((size <? 1) || (size >? 1000)) with false.
  2:{ symmetry. apply orb_false_iff. rewrite Z.gtb_ltb.
      split; apply Z.ltb_ge; lia. }
  apply render_same_range.
  now apply resolve_resolved.
Qed.

Lemma dump_reproducible_witness :
  let w := mkEnv 0 (fun _ => (0, mkFace "Noto" "Sans" 1000 800 (-200) 5))
                 (fun _ => 0) (fun _ => 0) (fun _ => 0)
                 (fun _ => mkSlot 640 0 0 (mkBitmap 0 0 0 []))
                 "2020-01-01 00:00:00" in
  exec (main w ["glyph_image"; "f.ttf"; "12"; "0"; "4"]) start
  = exec (render w "f.ttf" 12 (-3) 100) start.
Proof.
  intros w.
  refine (dump_reproducible w "glyph_image" "f.ttf" 12 (-3) 100 _ _).
  - lia.
  - unfold CInt.INT_MAX. simpl. lia.
Defined.

(** With the font name alone the program dumps the whole font at 48
    pixels: the run is that of the range {0, glyphCount - 1}, and once
    the set-up has passed the header shows this range and the glyph count
    of the font as the number of records. *)
Theorem default_run_whole_font (w : Env) (prog font : string) :
  0 < num_glyphs (snd (FT_New_Face w font)) <= CInt.INT_MAX ->
  let face := snd (FT_New_Face w font) in
  let run := exec (main w [prog; font]) start in
  run = exec (render w font 48 0 (num_glyphs face - 1)) start
  /\ (FT_Init_FreeType w = 0 -> fst (FT_New_Face w font) = 0 ->
      FT_Set_Pixel_Sizes w 48 = 0 ->
      starts (font_lines w font face 48
                ++ range_lines 0 (num_glyphs face - 1)
                ++ count_line (num_glyphs face))
             (stdout (snd run))).
Proof.
  intros Hn face run.
  assert (Hid : CInt.to_int (num_glyphs face - 1) = num_glyphs face - 1)
    by (apply to_int_id; unfold CInt.in_int, CInt.INT_MIN, CInt.INT_MAX in *;
        fold face in Hn; lia).
  assert (Hr : resolve 0 (-1) (num_glyphs face)
               = mkRange 0 (num_glyphs face - 1)).
  { unfold resolve, clamp_first, clamp_last. cbn [Z.ltb Z.compare Z.eqb orb].
    replace (0 >=? num_glyphs face) with false
      by (symmetry; rewrite Z.geb_leb; apply Z.leb_gt; fold face in Hn; lia).
    cbn [Z.eqb Pos.eqb orb]. now rewrite Hid. }
  assert (Hrun : run = exec (render w font 48 0 (num_glyphs face - 1)) start).
  { unfold run. rewrite main_default by reflexivity. cbn [nth].
    apply render_same_range. fold face. rewrite Hr.
    symmetry. apply resolve_valid; fold face in Hn; lia. }
  split; [exact Hrun | ].
  intros E1 E2 E4.
  assert (Hout := render_outcome w font 48 0 (-1)). cbv zeta in Hout.
  fold face in Hout. rewrite Hr in Hout. cbn [first last] in Hout.
  assert (Hrun' : run = exec (render w font 48 0 (-1)) start)
    by (unfold run; now rewrite main_default by reflexivity).
  rewrite <- Hrun' in Hout.
  destruct Hout as [(_ & _ & Hwhy) | (_ & _ & _ & _ & _ & Hout)];
    [exfalso; lia | ].
  rewrite Hout. unfold header_text.
  replace (CInt.to_int (num_glyphs face - 1 - 0 + 1)) with (num_glyphs face).
  2:{ replace (num_glyphs face - 1 - 0 + 1) with (num_glyphs face) by lia.
      symmetry. apply to_int_id.
      unfold CInt.in_int, CInt.INT_MIN, CInt.INT_MAX in *. fold face in Hn. lia. }
  eexists. rewrite !sapp_assoc. reflexivity.
Qed.

Lemma default_run_whole_font_witness :
  let w := mkEnv 0 (fun _ => (0, mkFace "Noto" "Sans" 1000 800 (-200) 5))
                 (fun _ => 0) (fun _ => 0) (fun _ => 0)
                 (fun _ => mkSlot 640 0 0 (mkBitmap 0 0 0 []))
                 "2020-01-01 00:00:00" in
  exec (main w ["glyph_image"; "f.ttf"]) start
  = exec (render w "f.ttf" 48 0 (5 - 1)) start.
Proof.
  intros w.
  refine (proj1 (default_run_whole_font w "glyph_image" "f.ttf" _)).
  unfold CInt.INT_MAX. simpl. lia.
Defined.

(** ** The lines of a glyph record *)

Lemma count_char_app (c : ascii) (a b : string) :
  count_char c (a ++ b) = (count_char c a + count_char c b)%nat.
Proof.
  induction a as [|x a IH]; [reflexivity | ].
  cbn [String.append count_char]. rewrite IH. lia.
Qed.

Lemma count_char_free (c : ascii) (s : string) :
  free_of (fun c' => Ascii.eqb c' c) s = true -> count_char c s = 0%nat.
Proof.
  induction s as [|x s IH]; [reflexivity | ].
  cbn [free_of count_char]. intros H. apply andb_true_iff in H.
  destruct H as [Hx Hs]. apply negb_true_iff in Hx. rewrite Hx. now apply IH.
Qed.

Lemma count_char_concat (c : ascii) (A : Type) (h : A -> string) (xs : list A) :
  (forall x : A, count_char c (h x) = 1%nat) ->
  count_char c (String.concat "" (map h xs)) = List.length xs.
Proof.
  intros Hone. induction xs as [|x xs IH]; [reflexivity | ].
  rewrite map_cons, concat_cons, count_char_app, Hone, IH. reflexivity.
Qed.

Section PairFree.

Variable bad : ascii -> bool.
Hypothesis bad_hex : free_of bad "0123456789abcdef " = true.

Lemma free_hex_uint_gen (d : Hexadecimal.uint) :
  free_of bad (HexadecimalString.NilEmpty.string_of_uint d) = true.
Proof.
  cbn [free_of] in bad_hex.
  repeat (apply andb_true_iff in bad_hex; destruct bad_hex as [? bad_hex]).
  induction d; cbn [HexadecimalString.NilEmpty.string_of_uint free_of];
    [reflexivity | ..]; apply andb_true_iff; split; assumption.
Qed.

Lemma free_fmt_02x_gen (v : Z) : free_of bad (fmt_02x v) = true.
Proof.
  assert (Hx : free_of bad (fmt_x v) = true).
  { unfold fmt_x, HexadecimalString.NilZero.string_of_uint.
    destruct (N.to_hex_uint (Z.to_N (CInt.to_uint v))) eqn:E;
      try (rewrite <- E; apply free_hex_uint_gen).
    cbn [free_of] in bad_hex. apply andb_true_iff in bad_hex.
    cbn [free_of]. now rewrite (proj1 bad_hex). }
  assert (H0 : bad "0" = false).
  { cbn [free_of] in bad_hex. apply andb_true_iff in bad_hex.
    now apply negb_true_iff. }
  unfold fmt_02x. destruct (fmt_x v) as [|c [|c' s]]; try exact Hx.
  cbn [free_of] in *. now rewrite H0.
Qed.

Lemma free_emit_cols_gen (buf : list byte) (p : Z) (fuel : nat) (cc max_cc : Z) :
  free_of bad (emit_cols buf p fuel cc max_cc) = true.
Proof.
  assert (Hsp : free_of bad "  " = true).
  { cbn [free_of] in bad_hex.
    repeat (apply andb_true_iff in bad_hex; destruct bad_hex as [? bad_hex]).
    cbn [free_of]. repeat (apply andb_true_iff; split); auto. }
  revert cc. induction fuel as [|fuel IH]; intros cc; [reflexivity | ].
  cbn [emit_cols]. destruct (cc <? max_cc); [ | reflexivity].
  rewrite free_of_app, IH, andb_true_r.
  destruct (negb (deref buf (p + cc) =? 0)); [apply free_fmt_02x_gen | exact Hsp].
Qed.

End PairFree.

Lemma row_text_counts (bm : FT_Bitmap) (p : Z) :
  count_char "010" (row_text bm p) = 1%nat
  /\ count_char ":" (row_text bm p) = 1%nat.
Proof.
  unfold row_text. rewrite !count_char_app.
  split; rewrite (count_char_free _ (emit_cols _ _ _ _ _))
    by (now apply free_emit_cols_gen); reflexivity.
Qed.

Lemma glyph_line_one_line (g : Z) (slot : FT_GlyphSlot) :
  count_char "010" (glyph_line g slot) = 1%nat.
Proof.
  assert (Hd : forall z : Z, count_char "010" (fmt_d z) = 0%nat)
    by (intros z; apply count_char_free; now apply free_fmt_d_gen).
  assert (Ha : forall adv : Z, count_char "010" (advance_text adv) = 0%nat).
  { intros adv. unfold advance_text.
    destruct (negb (CInt.rem adv 63 =? 0)); rewrite ?count_char_app, ?Hd;
      reflexivity. }
  unfold glyph_line. rewrite !count_char_app, !Hd, Ha. reflexivity.
Qed.

(** A glyph record is its header line, which starts with "> glyph: ",
    and then exactly [rows] row lines, each one line that starts with its
    only ':': a reader finds the end of a record by counting the lines
    the header announces. *)
Theorem glyph_record_lines (w : Env) (g : Z) :
  let bm := bitmap (glyph w g) in
  starts "> glyph: " (glyph_text w g)
  /\ count_char "010" (glyph_line g (glyph w g)) = 1%nat
  /\ count_char "010" (glyph_text w g) = (1 + Z.to_nat (rows bm))%nat
  /\ count_char ":" (bitmap_text bm) = Z.to_nat (rows bm)
  /\ (forall p : Z,
        starts ":" (row_text bm p) /\ ends LF (row_text bm p)
        /\ count_char "010" (row_text bm p) = 1%nat
        /\ count_char ":" (row_text bm p) = 1%nat).
Proof.
  intros bm.
  assert (Hrows : forall c : ascii,
            (forall p : Z, count_char c (row_text bm p) = 1%nat) ->
            count_char c (bitmap_text bm) = Z.to_nat (rows bm)).
  { intros c Hone. unfold bitmap_text.
    rewrite (rows_text_spec bm _ 0 0) by lia.
    rewrite (count_char_concat c nat
               (fun i : nat => row_text bm (0 + Z.of_nat i * pitch bm)))
      by (intros i; apply Hone).
    apply length_seq. }
  split; [ | split; [ | split; [ | split]]].
  - unfold glyph_text, glyph_line. eexists.
    rewrite !sapp_assoc. reflexivity.
  - apply glyph_line_one_line.
  - unfold glyph_text. fold bm.
    rewrite count_char_app, glyph_line_one_line, Hrows; [reflexivity | ].
    intros p. apply row_text_counts.
  - apply Hrows. intros p. apply row_text_counts.
  - intros p. split; [ | split; [apply row_text_line | apply row_text_counts]].
    unfold row_text. eexists. reflexivity.
Qed.

(** ** What a reader gets back from a row line *)

(** Decoding a row line of the program gives a row of the glyph's width
    that agrees with the coverage row in every column but maxCol, the last
    non-zero one. *)
Theorem row_roundtrip_but_last (bm : FT_Bitmap) (p : Z) :
  0 <= width bm <= CInt.INT_MAX ->
  0 <= p ->
  p + width bm <= Z.of_nat (List.length (buffer bm)) ->
  exists decoded : list byte,
    decode_row (Z.to_nat (width bm)) (row_text bm p) = Some decoded
    /\ List.length decoded = Z.to_nat (width bm)
    /\ forall c : nat,
         Z.of_nat c <> maxCol (row_bytes bm p) ->
         nth c decoded x00 = nth c (row_bytes bm p) x00.
Proof.
  intros Hw Hp Hin.
  pose proof (maxCol_bounds (row_bytes bm p)) as Hb.
  pose proof (row_bytes_length bm p ltac:(lia) Hp Hin) as Hlen.
  eexists. split; [apply (decode_row_text bm p Hw Hp Hin) | ].
  set (row := row_bytes bm p) in *. set (m := maxCol row) in *.
  assert (Hl : List.length (firstn (Z.to_nat m) row) = Z.to_nat m)
    by (rewrite length_firstn; lia).
  split.
  - rewrite length_app, repeat_length, Hl. lia.
  - intros c Hc. destruct (Z_lt_le_dec (Z.of_nat c) m) as [Hlt | Hge].
    + rewrite app_nth1 by lia. rewrite nth_firstn.
      now replace (c <? Z.to_nat m)%nat with true
        by (symmetry; apply Nat.ltb_lt; lia).
    + rewrite app_nth2 by lia. rewrite nth_repeat.
      symmetry. rewrite <- (Nat2Z.id c). apply maxCol_last. fold m. lia.
Qed.

Lemma row_roundtrip_but_last_witness :
  exists decoded : list byte,
    decode_row 5 (row_text (mkBitmap 1 5 5 [x00; x80; xff; x40; x00]) 0)
    = Some decoded
    /\ List.length decoded = 5%nat
    /\ forall c : nat,
         Z.of_nat c <> maxCol (row_bytes (mkBitmap 1 5 5 [x00; x80; xff; x40; x00]) 0) ->
         nth c decoded x00
         = nth c (row_bytes (mkBitmap 1 5 5 [x00; x80; xff; x40; x00]) 0) x00.
Proof.
  refine (row_roundtrip_but_last (mkBitmap 1 5 5 [x00; x80; xff; x40; x00]) 0 _ _ _).
  - unfold CInt.INT_MAX. simpl. lia.
  - lia.
  - simpl. lia.
Defined.

(** A glyph that is at most one column wide is dumped with blank rows,
    whatever its pixels are. *)
Theorem narrow_glyph_blank (bm : FT_Bitmap) (p : Z) :
  0 <= width bm <= 1 -> row_text bm p = ":" ++ LF.
Proof.
  intros Hw. unfold row_text.
  assert (Hcases : width bm = 0 \/ width bm = 1) by lia.
  destruct Hcases as [-> | ->].
  - reflexivity.
  - change (CInt.to_int (CInt.to_uint (1 - 1))) with 0.
    change (Z.to_nat (0 + 1)) with 1%nat. cbn [scan_max_cc].
    destruct ((0 >=? 0) && (deref (buffer bm) (p + 0) =? 0)); reflexivity.
Qed.

Lemma narrow_glyph_blank_witness :
  row_text (mkBitmap 1 1 1 [xff]) 0 = ":" ++ LF.
Proof.
  refine (narrow_glyph_blank (mkBitmap 1 1 1 [xff]) 0 _). simpl. lia.
Defined.

(** Two coverage rows are written as the same line exactly when they
    agree on the columns before their last non-zero column: the line
    tells neither the value of that column nor, for a line without pairs,
    whether the row has a non-zero pixel at all. *)
Theorem row_line_eq_iff (bm bm' : FT_Bitmap) (p p' : Z) :
  0 <= width bm <= CInt.INT_MAX -> 0 <= p ->
  p + width bm <= Z.of_nat (List.length (buffer bm)) ->
  0 <= width bm' <= CInt.INT_MAX -> 0 <= p' ->
  p' + width bm' <= Z.of_nat (List.length (buffer bm')) ->
  (row_text bm p = row_text bm' p'
   <-> firstn (Z.to_nat (maxCol (row_bytes bm p))) (row_bytes bm p)
       = firstn (Z.to_nat (maxCol (row_bytes bm' p'))) (row_bytes bm' p')).
Proof.
  intros Hw Hp Hin Hw' Hp' Hin'.
  rewrite (row_text_encoded bm p Hw Hp Hin),
    (row_text_encoded bm' p' Hw' Hp' Hin').
  unfold encoded_row. split.
  - intros H. cbn [String.append] in H. injection H as H.
    apply (f_equal chomp) in H. rewrite !chomp_line in H.
    apply (f_equal decode_pairs) in H. rewrite !decode_pairs_text in H.
    now injection H.
  - intros ->. reflexivity.
Qed.

Lemma row_line_eq_iff_witness :
  row_text (mkBitmap 1 3 3 [x10; x20; x30]) 0
  = row_text (mkBitmap 1 4 4 [x10; x20; xff; x00]) 0.
Proof.
  refine (proj2 (row_line_eq_iff (mkBitmap 1 3 3 [x10; x20; x30])
                   (mkBitmap 1 4 4 [x10; x20; xff; x00]) 0 0 _ _ _ _ _ _) _);
    try (unfold CInt.INT_MAX; simpl; lia).
  reflexivity.
Defined.

(** ** Two runs on the same font *)

Lemma for_glyphs_with_now (w : Env) (t : string) (fuel : nat) :
  forall (g l : Z) (o : Out),
    for_glyphs (with_now w t) fuel g l o = for_glyphs w fuel g l o.
Proof.
  induction fuel as [|fuel IH]; intros g l o; [reflexivity | ].
  cbn [for_glyphs]. destruct (g <=? l); [ | reflexivity].
  unfold bind. change (dump_glyph (with_now w t) g o) with (dump_glyph w g o).
  destruct (dump_glyph w g o) as [[[] | rc] o']; [apply IH | reflexivity].
Qed.

(** The loop does not look at what was written before it. *)
Lemma for_glyphs_frame (w : Env) (fuel : nat) :
  forall (g l : Z) (pre pre' s e : string) (c : list FT_Call),
  exists (fl : flow unit) (s' e' : string) (c' : list FT_Call),
    for_glyphs w fuel g l (mkOut (pre ++ s) e c) = (fl, mkOut (pre ++ s') e' c')
    /\ for_glyphs w fuel g l (mkOut (pre' ++ s) e c)
       = (fl, mkOut (pre' ++ s') e' c').
Proof.
  induction fuel as [|fuel IH]; intros g l pre pre' s e c.
  - exists (Next tt), s, e, c. now split.
  - cbn [for_glyphs]. destruct (g <=? l).
    2:{ exists (Next tt), s, e, c. now split. }
    unfold bind.
    destruct (Z.eq_dec (glyph_error w g) 0) as [Hok | Hfail].
    + rewrite !(dump_glyph_ok w g _ Hok). cbn [stdout stderr calls].
      rewrite !sapp_assoc. apply IH.
    + rewrite !(dump_glyph_fail w g _ Hfail). cbn [stdout stderr calls].
      now exists (Return (glyph_error w g)), s, (e ++ glyph_diagnostic w g),
        (c ++ failed_glyph_calls w g)%list.
Qed.

(** Two runs that differ only in the time of the clock return the same
    code, write the same diagnostics and make the same calls, and their
    dumps are both empty or differ only in the time of their first line
    "# generated on ...". *)
Theorem timestamp_only_in_first_line
    (w : Env) (t face_name : string) (size f l : Z) :
  let run := exec (render w face_name size f l) start in
  let run' := exec (render (with_now w t) face_name size f l) start in
  fst run' = fst run
  /\ stderr (snd run') = stderr (snd run)
  /\ calls (snd run') = calls (snd run)
  /\ ((stdout (snd run) = "" /\ stdout (snd run') = "")
      \/ exists body : string,
           stdout (snd run) = ("# generated on " ++ now w ++ LF) ++ body
           /\ stdout (snd run') = ("# generated on " ++ t ++ LF) ++ body).
Proof.
  intros run run'. subst run run'.
  pose proof (setup_failure_cases w face_name size f l) as (F1 & F2 & F3 & F4).
  pose proof (setup_failure_cases (with_now w t) face_name size f l)
    as (G1 & G2 & G3 & G4).
  cbn [with_now FT_Init_FreeType FT_New_Face FT_Set_Pixel_Sizes] in G1, G2, G3, G4.
  destruct (Z.eq_dec (FT_Init_FreeType w) 0) as [E1 | E1];
    [ | rewrite (F1 E1), (G1 E1); now (cbn [fst snd stdout stderr calls]; repeat split; left)].
  destruct (Z.eq_dec (fst (FT_New_Face w face_name)) 0) as [E2 | E2];
    [ | rewrite (F2 E1 E2), (G2 E1 E2); now (cbn [fst snd stdout stderr calls]; repeat split; left)].
  destruct (Z_lt_le_dec size 4) as [E3 | E3];
    [rewrite (F3 E1 E2 E3), (G3 E1 E2 E3); now (cbn [fst snd stdout stderr calls]; repeat split; left) | ].
  destruct (Z.eq_dec (FT_Set_Pixel_Sizes w size) 0) as [E4 | E4];
    [ | rewrite (F4 E1 E2 E3 E4), (G4 E1 E2 E3 E4); now (cbn [fst snd stdout stderr calls]; repeat split; left)].
  rewrite (render_reaches_loop w face_name size f l E1 E2 E3 E4).
  rewrite (render_reaches_loop (with_now w t) face_name size f l E1 E2 E3 E4).
  cbn [with_now FT_New_Face].
  set (face := snd (FT_New_Face w face_name)).
  set (r := resolve f l (num_glyphs face)).
  rewrite !exec_bind, !print_header_run, !exec_bind.
  cbn [stdout stderr calls String.append].
  assert (Hhead : exists rest : string, forall v : Env,
            header_text v face_name face size (first r) (last r)
            = ("# generated on " ++ now v ++ LF) ++ rest).
  { eexists. intros v. unfold header_text, font_lines.
    rewrite !sapp_assoc. reflexivity. }
  destruct Hhead as [rest Hhead]. rewrite !Hhead. cbn [with_now now].
  rewrite for_glyphs_with_now.
  destruct (for_glyphs_frame w (Z.to_nat (last r - first r + 1))
              (first r) (last r)
              ("# generated on " ++ now w ++ LF) ("# generated on " ++ t ++ LF)
              rest "" (setup_calls face_name size))
    as (fl & s' & e' & c' & Ha & Hb).
  rewrite Ha, Hb.
  destruct fl as [[] | rc].
  - unfold exec, bind, printf, ret. cbn [fst snd stdout stderr calls].
    repeat split. right. exists (s' ++ "# EOF" ++ LF).
    now rewrite !sapp_assoc.
  - cbn [fst snd stdout stderr calls]. repeat split. right. now exists s'.
Qed.
